(** * supermariopy.denseposelib: label maps, remapping, IoU scoring

    A shallow embedding of the label-map utilities of
    [supermariopy/denseposelib.py] and the properties of its
    specification, checked against that embedding.

    Conventions of the embedding.
    - A numpy array is a shape together with its row-major buffer
      ([ndarray]).  Integer label arrays hold unbounded integers ([Z]): the
      element type is taken wide enough for every label written into it.
      The remapper writes values that come from its caller, so it is
      given on arrays with an integer dtype as well ([Dtype]), where a
      value is converted to the dtype when it is stored.
    - A Python [dict] is a finite map ([gmap]); where the source iterates
      over a dict, the loop body is modelled over the sequence of items and
      the dict supplies one enumeration of them.
    - Python exceptions are the [Raise] results of the [result] monad.
    - A float is its exact rational value, or infinity, or NaN ([npfloat]):
      quotients of pixel counts are kept exact, binary64 rounding is not
      modelled. *)

From Stdlib Require Import ZArith QArith Qabs Qround Lia.
From stdpp Require Import gmap strings list fin_maps sorting.

Local Open Scope Z_scope.

(** ** Python exceptions and results *)

Module Py.

Inductive exn : Set :=
  | ValueError
  | IndexError
  | KeyError
  | TypeError
  | ZeroDivisionError
  | CvError.

Inductive result (A : Type) : Type :=
  | Ok (a : A)
  | Raise (e : exn).

Arguments Ok {A} a.
Arguments Raise {A} e.

Definition bind {A B : Type} (m : result A) (k : A → result B) : result B :=
  match m with
  | Ok a => k a
  | Raise e => Raise e
  end.

(** [for x in xs: acc = body(acc, x)], stopping at the first exception. *)
Fixpoint for_each {A S : Type} (body : S → A → result S) (xs : list A) (acc : S)
  : result S :=
  match xs with
  | [] => Ok acc
  | x :: xs' => bind (body acc x) (for_each body xs')
  end.

(** [list(map(f, xs))], stopping at the first exception. *)
Fixpoint map_each {A B : Type} (f : A → result B) (xs : list A) : result (list B) :=
  match xs with
  | [] => Ok []
  | x :: xs' => bind (f x) (λ y, bind (map_each f xs') (λ ys, Ok (y :: ys)))
  end.

(** [enumerate(xs)] *)
Definition enumerate {A : Type} (xs : list A) : list (nat * A) :=
  zip (seq 0 (length xs)) xs.

End Py.

Export Py.

#[global] Instance result_ret : MRet result := @Ok.
#[global] Instance result_bind : MBind result := λ A B k m, Py.bind m k.

(** ** Floats *)

Module Float.

(** A float: an exact rational, an infinity with its sign, or NaN. *)
Inductive npfloat : Set :=
  | FNum (q : Q)
  | FInf (negative : bool)
  | FNaN.

Definition is_finite (x : npfloat) : bool :=
  match x with FNum _ => true | _ => false end.

Definition is_nan (x : npfloat) : bool :=
  match x with FNaN => true | _ => false end.

(** [float(n)] for an integer [n] *)
Definition of_int (n : Z) : npfloat := FNum (inject_Z n).

(** Division of two finite floats the way numpy divides arrays: a zero
    divisor gives NaN for [0/0] and an infinity otherwise, under a
    warning and without an exception. *)
Definition true_divide (x y : Q) : npfloat :=
  if Qeq_bool y 0 then
    if Qeq_bool x 0 then FNaN else FInf (Qnum x <? 0)
  else FNum (Qred (x / y)).

Definition fadd (x y : npfloat) : npfloat :=
  match x, y with
  | FNaN, _ | _, FNaN => FNaN
  | FInf s, FInf s' => if Bool.eqb s s' then FInf s else FNaN
  | FInf s, FNum _ | FNum _, FInf s => FInf s
  | FNum a, FNum b => FNum (Qred (a + b))
  end.

(** [x / n] for a positive count [n] *)
Definition fdiv_count (x : npfloat) (n : nat) : npfloat :=
  match x with
  | FNum a => FNum (Qred (a / inject_Z (Z.of_nat n)))
  | _ => x
  end.

(** The mean that skips NaN entries ([skipna=True], the default of
    pandas' [mean]): NaN when nothing is left. *)
Definition nanmean (xs : list npfloat) : npfloat :=
  let kept := filter (λ x, is_nan x = false) xs in
  match kept with
  | [] => FNaN
  | _ => fdiv_count (foldl fadd (FNum 0) kept) (length kept)
  end.

(** [x.astype(int)]: the fractional part is dropped (truncation toward
    zero).  For NaN and the infinities the conversion is left open by C;
    the model takes the least 64-bit integer, as x86-64 builds store. *)
Definition astype_int (x : npfloat) : Z :=
  match x with
  | FNum q => Z.quot (Qnum q) (Z.pos (Qden q))
  | _ => - 2 ^ 63
  end.

End Float.

Export Float.

(** ** numpy arrays *)

Module Np.

Record ndarray (A : Type) : Type := NdArray {
  shape : list nat;
  data : list A
}.

Arguments NdArray {A} shape data.
Arguments shape {A} _.
Arguments data {A} _.

(** Number of elements of an array of a given shape. *)
Definition numel (s : list nat) : nat := foldr Nat.mul 1%nat s.

(** The buffer has as many elements as the shape says. *)
Definition wf {A : Type} (a : ndarray A) : Prop :=
  length (data a) = numel (shape a).

(** [np.zeros_like(a)] *)
Definition zeros_like (a : ndarray Z) : ndarray Z :=
  NdArray (shape a) (replicate (length (data a)) 0).

(** [a == v] for a scalar [v] *)
Definition eq_scalar (a : ndarray Z) (v : Z) : ndarray bool :=
  NdArray (shape a) ((λ x, Z.eqb x v) <$> data a).

(** [a[mask] = v] for a boolean mask of the shape of [a] *)
Definition setitem_mask (a : ndarray Z) (mask : ndarray bool) (v : Z) : ndarray Z :=
  NdArray (shape a) (zip_with (λ (m : bool) x, if m then v else x) (data mask) (data a)).

(** [np.unique(a)]: the sorted distinct values, as a 1-D array. *)
Definition unique (a : ndarray Z) : list Z :=
  merge_sort Z.le (remove_dups (data a)).

(** An elementwise operation on two boolean arrays.  Arrays of equal shape
    are combined position by position; numpy's broadcasting of unequal
    shapes is not modelled, every unequal pair is a [ValueError]. *)
Definition elementwise (f : bool → bool → bool) (a b : ndarray bool)
  : result (ndarray bool) :=
  if decide (shape a = shape b)
  then Ok (NdArray (shape a) (zip_with f (data a) (data b)))
  else Raise ValueError.

Definition logical_and : ndarray bool → ndarray bool → result (ndarray bool) :=
  elementwise andb.

Definition logical_or : ndarray bool → ndarray bool → result (ndarray bool) :=
  elementwise orb.

(** Number of [True] entries of a buffer. *)
Definition count_true (l : list bool) : nat :=
  sum_list_with (λ b : bool, if b then 1%nat else 0%nat) l.

(** [np.sum(a)] of a boolean array *)
Definition sum (a : ndarray bool) : Z := Z.of_nat (count_true (data a)).

(** [np.zeros(n)], a 1-D float array *)
Definition zeros (n : nat) : list Q := replicate n 0%Q.

(** [a[i] = v] on a 1-D array *)
Definition setitem {A : Type} (a : list A) (i : nat) (v : A) : result (list A) :=
  if decide (i < length a)%nat then Ok (<[i := v]> a) else Raise IndexError.

(** [a[mask]] on 1-D arrays: the entries selected by a boolean mask *)
Definition getitem_mask {A : Type} (a : list A) (mask : list bool) : result (list A) :=
  if decide (length mask = length a)
  then Ok (snd <$> filter (λ p : bool * A, p.1 = true) (zip mask a))
  else Raise IndexError.

(** [len(a)] *)
Definition len {A : Type} (a : ndarray A) : result nat :=
  match shape a with
  | [] => Raise TypeError
  | n :: _ => Ok n
  end.

(** The [i]-th slice along the first axis. *)
Definition subarray {A : Type} (a : ndarray A) (i : nat) : ndarray A :=
  let s := tail (shape a) in
  NdArray s (take (numel s) (drop (i * numel s) (data a))).

(** [a[i]] for an integer [i] *)
Definition getitem {A : Type} (a : ndarray A) (i : nat) : result (ndarray A) :=
  match shape a with
  | [] => Raise IndexError
  | n :: _ => if decide (i < n)%nat then Ok (subarray a i) else Raise IndexError
  end.

(** [np.squeeze(a)]: every axis of length one is dropped. *)
Definition squeeze {A : Type} (a : ndarray A) : ndarray A :=
  NdArray (filter (λ d, d ≠ 1%nat) (shape a)) (data a).

(** [np.split(a, sections, axis=0)] for an integer number of sections:
    [a.shape[0] % sections] is computed first and must be zero. *)
Definition split {A : Type} (a : ndarray A) (sections : nat)
  : result (list (ndarray A)) :=
  match shape a with
  | [] => Raise IndexError
  | n :: s =>
      if decide (sections = 0%nat) then Raise ZeroDivisionError
      else if decide (n mod sections = 0)%nat then
        let each := (n / sections)%nat in
        let chunk := (each * numel s)%nat in
        Ok ((λ i, NdArray (each :: s) (take chunk (drop (i * chunk) (data a))))
              <$> seq 0 sections)
      else Raise ValueError
  end.

(** [np.stack(arrays, axis=0)]: at least one array, all of one shape. *)
Definition stack {A : Type} (arrays : list (ndarray A)) : result (ndarray A) :=
  match arrays with
  | [] => Raise ValueError
  | a :: _ =>
      if decide (Forall (λ b, shape b = shape a) arrays)
      then Ok (NdArray (length arrays :: shape a) (concat (data <$> arrays)))
      else Raise ValueError
  end.

(** The coordinates of the [k]-th element of the row-major buffer of an
    array of shape [s]. *)
Fixpoint unravel_index (s : list nat) (k : nat) : list nat :=
  match s with
  | [] => []
  | d :: s' => ((k / numel s') mod d)%nat :: unravel_index s' k
  end.

End Np.

Export Np.

(** ** pandas tables *)

Module Pd.

(** A table: its column names in order and its rows, each row holding the
    cells it has by column name.  A cell a row lacks reads as NaN. *)
Record DataFrame : Type := {
  columns : list string;
  rows : list (gmap string npfloat)
}.

Definition cell (row : gmap string npfloat) (c : string) : npfloat :=
  default FNaN (row !! c).

(** The cells of column [c], one per row. *)
Definition column (df : DataFrame) (c : string) : list npfloat :=
  (λ row, cell row c) <$> rows df.

(** Modelled from the spec: [df_empty] of [supermariopy/pandaslib.py] is
    not among the sources.  It is the empty table with the fixed column
    schema it is given (the sample index and one column per label name);
    the column dtypes passed along with the names are not modelled.  The
    names are kept as given: statements about the columns take them
    pairwise distinct, a table having one column per distinct name. *)
Definition df_empty (column_names : list string) : DataFrame :=
  {| columns := column_names; rows := [] |}.

(** [df.append(row, ignore_index=True)] for a dict [row]: the row goes
    last; keys that are no column yet become new columns. *)
Definition append (df : DataFrame) (row : gmap string npfloat) : DataFrame :=
  {| columns := columns df
                ++ filter (λ k, k ∉ columns df) (map_to_list row).*1;
     rows := rows df ++ [row] |}.

(** [x != q] on a cell: NaN differs from every number. *)
Definition ne (x : npfloat) (q : Q) : bool :=
  match x with
  | FNum a => negb (Qeq_bool a q)
  | _ => true
  end.

(** What [df[df != q]] leaves of one cell: a cell that fails the condition
    becomes NaN. *)
Definition keep_ne (q : Q) (x : npfloat) : npfloat :=
  if ne x q then x else FNaN.

(** [df[df != q]] *)
Definition where_ne (q : Q) (df : DataFrame) : DataFrame :=
  {| columns := columns df;
     rows := (λ row : gmap string npfloat, keep_ne q <$> row) <$> rows df |}.

(** [df.mean().to_frame().transpose()]: one row holding the mean of each
    column, NaN cells skipped. *)
Definition mean_frame (df : DataFrame) : DataFrame :=
  {| columns := columns df;
     rows := [foldl (λ row c, <[c := nanmean (column df c)]> row) ∅ (columns df)] |}.

(** [df[cols].mean(axis=1)]: per row, the mean over the named columns,
    NaN cells skipped. *)
Definition mean_axis1 (df : DataFrame) (cols : list string) : list npfloat :=
  (λ row, nanmean ((λ c, cell row c) <$> cols)) <$> rows df.

(** [df[c] = values]: column [c] is set row by row, and added to the
    columns when new. *)
Definition setitem_column (df : DataFrame) (c : string) (values : list npfloat)
  : DataFrame :=
  {| columns := if decide (c ∈ columns df) then columns df else columns df ++ [c];
     rows := zip_with (λ row v, <[c := v]> row) (rows df) values |}.

End Pd.

Export Pd.

(** ** External image routines *)

Inductive interpolation : Set := INTER_NEAREST | INTER_LINEAR.

(** A reference model of [cv2.resize(src, (w, h), interpolation=INTER_NEAREST)]
    on a non-empty 2-D array: destination pixel [(y, x)] takes source pixel
    [(min(y*H/h, H-1), min(x*W/w, W-1))].  It instantiates the resize
    parameter of [resize_labels] in examples; other interpolations and
    other ranks are refused. *)
Definition cv2_resize_nearest (src : ndarray Z) (size : nat * nat)
    (interp : interpolation) : result (ndarray Z) :=
  match interp, shape src with
  | INTER_NEAREST, [H; W] =>
      let '(w, h) := size in
      if decide (H = 0 ∨ W = 0 ∨ w = 0 ∨ h = 0)%nat then Raise CvError
      else
        Ok (NdArray [h; w]
              (y ← seq 0 h; x ← seq 0 w;
               let sy := ((y * H / h) `min` (H - 1))%nat in
               let sx := ((x * W / w) `min` (W - 1))%nat in
               [default 0 (data src !! (sy * W + sx)%nat)]))
  | _, _ => Raise CvError
  end.

(** ** denseposelib *)

(** *** Label remapper *)

(** The body of [remap_parts] over one enumeration of the table's items:
<<
    new_part_map = np.zeros_like(part_map)
    for old_id, new_id in remap_dict.items():
        mask = part_map == old_id
        new_part_map[mask] = new_id
    return new_part_map
>> *)
Definition remap_parts_items (part_map : ndarray Z) (items : list (Z * Z)) : ndarray Z :=
  foldl (λ new_part_map '(old_id, new_id),
           let mask := eq_scalar part_map old_id in
           setitem_mask new_part_map mask new_id)
        (zeros_like part_map) items.

(** [remap_parts] on a table.  Python enumerates [remap_dict.items()] in
    insertion order, which a finite map does not record; the table is
    enumerated here by [map_to_list], and the loop is shown below to give
    the same output on every enumeration of the table. *)
Definition remap_parts (part_map : ndarray Z) (remap_dict : gmap Z Z) : ndarray Z :=
  remap_parts_items part_map (map_to_list remap_dict).

(** *** Part vocabulary *)

Definition PART_DICT_ID2STR : list (Z * string) :=
  [ (0, "background"); (1, "back"); (2, "chest"); (3, "right_hand");
    (4, "left_hand"); (5, "left_foot"); (6, "right_foot");
    (7, "back_upper_front_leg"); (8, "back_upper_left_leg");
    (9, "right_upper_leg"); (10, "left_upper_leg");
    (11, "back_right_lower_leg"); (12, "back_left_lower_leg");
    (13, "right_lower_leg"); (14, "left_lower_leg");
    (15, "left_upper_arm1"); (16, "right_upper_arm1");
    (17, "left_upper_arm2"); (18, "right_upper_arm2");
    (19, "left_lower_arm1"); (20, "right_lower_arm1");
    (21, "left_lower_arm2"); (22, "right_lower_arm2");
    (23, "left_head"); (24, "right_head") ]%string.

Definition PART_LIST : list string := PART_DICT_ID2STR.*2.

(** [l.index(x)]: the first position of [x], [ValueError] when absent. *)
Definition list_index (l : list string) (x : string) : result nat :=
  match list_find (λ y, y = x) l with
  | Some (i, _) => Ok i
  | None => Raise ValueError
  end.

(** [d[k]] *)
Definition dict_getitem {V : Type} (d : gmap string V) (k : string) : result V :=
  match d !! k with
  | Some v => Ok v
  | None => Raise KeyError
  end.

(** *** Semantic grouping compiler
<<
    remap_dict = {}
    for i, new_label in enumerate(new_part_list):
        old_keys = semantic_remap_dict[new_label]
        remap_dict.update({PART_LIST.index(o): i for o in old_keys})
    return remap_dict
>> *)
Definition semantic_remap_dict2remap_dict
    (semantic_remap_dict : gmap string (list string))
    (new_part_list : list string) : result (gmap Z Z) :=
  for_each
    (λ (remap_dict : gmap Z Z) '(i, new_label),
       old_keys ← dict_getitem semantic_remap_dict new_label;
       update ← for_each
                  (λ (d : gmap Z Z) o,
                     k ← list_index PART_LIST o;
                     Ok (<[Z.of_nat k := Z.of_nat i]> d))
                  old_keys ∅;
       Ok (update ∪ remap_dict))
    (enumerate new_part_list) ∅.

(** *** IoU scorer
<<
    unique_labels = np.unique(label)
    num_unique_labels = len(unique_labels)
    Intersection = np.zeros(num_unique_labels)
    Union = np.zeros(num_unique_labels)
    for index, val in enumerate(unique_labels):
        pred_i = pred == val
        label_i = label == val
        Intersection[index] = float(np.sum(np.logical_and(label_i, pred_i)))
        Union[index] = float(np.sum(np.logical_or(label_i, pred_i)))
    return Intersection / Union, unique_labels
>> *)
Definition compute_iou (pred label : ndarray Z) : result (list npfloat * list Z) :=
  let unique_labels := Np.unique label in
  let num_unique_labels := length unique_labels in
  counts ← for_each
      (λ '(Intersection, Union') '(index, val),
         let pred_i := eq_scalar pred val in
         let label_i := eq_scalar label val in
         both ← logical_and label_i pred_i;
         Intersection ← setitem Intersection index (inject_Z (Np.sum both));
         either ← logical_or label_i pred_i;
         Union' ← setitem Union' index (inject_Z (Np.sum either));
         Ok (Intersection, Union'))
      (enumerate unique_labels)
      (zeros num_unique_labels, zeros num_unique_labels);
  Ok (zip_with true_divide counts.1 counts.2, unique_labels).

(** *** Batch aggregator *)

(** [float(np.squeeze(a))]: defined for an array of exactly one element. *)
Definition float_of_squeezed (a : list npfloat) : result npfloat :=
  match a with
  | [x] => Ok x
  | _ => Raise TypeError
  end.

(** The value written for a label absent from the ground truth. *)
Definition sentinel : npfloat := FNum (-1).

(** One row of the table:
<<
    df_update = {p: -1.0 for p in label_names}
    df_update.update(
        {
            p: float(np.squeeze(iou[pi == iou_labels]))
            for pi, p in enumerate(label_names)
            if pi in iou_labels
        }
    )
    df_update.update({"batch_idx": batch_idx})
>> *)
Definition iou_row (iou : list npfloat) (iou_labels : list Z)
    (label_names : list string) (batch_idx : nat) : result (gmap string npfloat) :=
  let df_update : gmap string npfloat :=
    foldl (λ d p, <[p := sentinel]> d) ∅ label_names in
  present ← for_each
      (λ (d : gmap string npfloat) '(pi, p),
         if bool_decide (Z.of_nat pi ∈ iou_labels) then
           selected ← getitem_mask iou ((λ l, Z.eqb (Z.of_nat pi) l) <$> iou_labels);
           value ← float_of_squeezed selected;
           Ok (<[p := value]> d)
         else Ok d)
      (enumerate label_names) ∅;
  let df_update := present ∪ df_update in
  Ok (<["batch_idx"%string := of_int (Z.of_nat batch_idx)]> df_update).

(**
<<
    column_names = ["batch_idx"] + label_names
    df = df_empty(column_names, dtypes)
    for batch_idx in range(len(predicted)):
        current_inferred = predicted[batch_idx]
        current_gt = target[batch_idx]
        iou, iou_labels = compute_iou(current_inferred, current_gt)
        df_update = ...
        df = df.append(df_update, ignore_index=True)
    return df
>> *)
Definition calculate_iou_df (predicted target : ndarray Z)
    (label_names : list string) : result DataFrame :=
  let column_names := "batch_idx"%string :: label_names in
  let df := df_empty column_names in
  n ← len predicted;
  for_each
    (λ df batch_idx,
       current_inferred ← getitem predicted batch_idx;
       current_gt ← getitem target batch_idx;
       scores ← compute_iou current_inferred current_gt;
       df_update ← iou_row scores.1 scores.2 label_names batch_idx;
       Ok (Pd.append df df_update))
    (seq 0 n) df.

(** *** Overall-score reducer
<<
    df_mean = df[df != -1].mean().to_frame().transpose()
    df_mean["overall"] = df_mean[
        filter(lambda x: x not in exclude_columns, df.columns)
    ].mean(axis=1)
    return df_mean
>> *)
Definition calculate_overall_iou_from_df (df : DataFrame)
    (exclude_columns : list string) : DataFrame :=
  let df_mean := mean_frame (where_ne (-1) df) in
  setitem_column df_mean "overall"
    (mean_axis1 df_mean (filter (λ x, x ∉ exclude_columns) (columns df))).

Definition default_exclude_columns : list string :=
  ["global_step"; "batch_idx"; "background"]%string.

(** *** Centroid extractor *)

(** [scipy.ndimage.center_of_mass] of a boolean mask: along each axis, the
    sum of the coordinates of the set pixels over the number of set pixels. *)
Definition center_of_mass (x : ndarray bool) : list npfloat :=
  let normalizer := Np.sum x in
  let set_pixels :=
    (filter (λ p : nat * bool, p.2 = true) (enumerate (data x))).*1 in
  (λ axis,
     let coords := (λ k, default 0%nat (unravel_index (shape x) k !! axis))
                     <$> set_pixels in
     true_divide (inject_Z (Z.of_nat (sum_list coords))) (inject_Z normalizer))
    <$> seq 0 (length (shape x)).

(** [np.array(center_of_mass(x)).astype(np.int)] *)
Definition _calc_centroid (x : ndarray bool) : list Z :=
  astype_int <$> center_of_mass x.

Section Centroids.

(** [skimage.measure.label]: the connected-component labelling of a mask,
    components numbered from 1, background 0. *)
Variable measure_label : ndarray bool → ndarray Z.

(** The labels are visited in ascending order; Python leaves the
    iteration order of the set [set(unique_labels) - set([background])]
    open.
<<
  unique_labels = np.unique(labels)
  unique_labels = set(unique_labels) - set([background])
  label_masks = [labels == label_id for label_id in unique_labels]
  centroids = []
  centroid_labels = []
  for label_mask, label_id in zip(label_masks, unique_labels):
      if cca:
          connected_labels = measure.label(label_mask)
          connected_ids = set(np.unique(connected_labels))
          connected_ids -= set([0])  # suppress background
          connected_masks = [connected_labels == cid for cid in connected_ids]
          current_centroids = list(map(_calc_centroid, connected_masks))
          centroids += current_centroids
          centroid_labels += [label_id] * len(current_centroids)
      else:
          current_centroids = _calc_centroid(label_mask)
          centroids.append(current_centroids)
          centroid_labels.append(label_id)
  return centroids, centroid_labels
>> *)
Definition calculate_centroids (labels : ndarray Z) (cca : bool) (background : Z)
  : list (list Z) * list Z :=
  let unique_labels := Np.unique labels in
  let unique_labels := filter (λ v, v ≠ background) unique_labels in
  let label_masks := (λ label_id, eq_scalar labels label_id) <$> unique_labels in
  foldl
    (λ '(centroids, centroid_labels) '(label_mask, label_id),
       if cca then
         let connected_labels := measure_label label_mask in
         let connected_ids :=
           filter (λ v, v ≠ 0) (Np.unique connected_labels) in
         let connected_masks :=
           (λ cid, eq_scalar connected_labels cid) <$> connected_ids in
         let current_centroids := _calc_centroid <$> connected_masks in
         (centroids ++ current_centroids,
          centroid_labels ++ replicate (length current_centroids) label_id)
       else
         let current_centroids := _calc_centroid label_mask in
         (centroids ++ [current_centroids], centroid_labels ++ [label_id]))
    ([], []) (zip label_masks unique_labels).

End Centroids.

(** *** Label-map resizer *)

Section Resize.

(** [cv2.resize(src, size, interpolation=...)], an external routine. *)
Variable cv2_resize : ndarray Z → nat * nat → interpolation → result (ndarray Z).

(**
<<
  if len(labels.shape) == 2:
      return cv2.resize(labels, size, interpolation=cv2.INTER_NEAREST)
  elif len(labels.shape) == 3:
      label_list = np.split(labels, labels.shape[0], axis=0)
      label_list = list(
          map(
              lambda x: cv2.resize(
                  np.squeeze(x), size, interpolation=cv2.INTER_NEAREST
              ),
              label_list,
          )
      )
      labels = np.stack(label_list, axis=0)
      return labels
  else:
      raise ValueError(...)
>> *)
Definition resize_labels (labels : ndarray Z) (size : nat * nat)
  : result (ndarray Z) :=
  if decide (length (shape labels) = 2%nat) then
    cv2_resize labels size INTER_NEAREST
  else if decide (length (shape labels) = 3%nat) then
    label_list ← split labels (default 0%nat (head (shape labels)));
    label_list ← map_each
                   (λ x, cv2_resize (squeeze x) size INTER_NEAREST)
                   label_list;
    stack label_list
  else Raise ValueError.

End Resize.

(** ** Notions used in the statements *)

(** Same-shaped arrays whose buffers match their shape. *)
Definition same_shape {A B : Type} (a : ndarray A) (b : ndarray B) : Prop :=
  wf a ∧ wf b ∧ shape a = shape b.

(** Number of pixels that carry label [v] in both maps. *)
Definition intersection_count (pred label : ndarray Z) (v : Z) : nat :=
  length (filter (λ p : Z * Z, p.1 = v ∧ p.2 = v) (zip (data pred) (data label))).

(** Number of pixels that carry label [v] in at least one of the maps. *)
Definition union_count (pred label : ndarray Z) (v : Z) : nat :=
  length (filter (λ p : Z * Z, p.1 = v ∨ p.2 = v) (zip (data pred) (data label))).

(** The Jaccard index of label [v]: intersection over union, as numpy
    divides. *)
Definition iou_of (pred label : ndarray Z) (v : Z) : npfloat :=
  true_divide (inject_Z (Z.of_nat (intersection_count pred label v)))
              (inject_Z (Z.of_nat (union_count pred label v))).

(** The positions of the buffer that carry label [v]. *)
Definition label_pixels (labels : ndarray Z) (v : Z) : list nat :=
  (filter (λ p : nat * Z, p.2 = v) (enumerate (data labels))).*1.

(** Sum, over the pixels of label [v], of their coordinate along [axis]. *)
Definition coord_sum (labels : ndarray Z) (v : Z) (axis : nat) : nat :=
  sum_list ((λ k, default 0%nat (unravel_index (shape labels) k !! axis))
              <$> label_pixels labels v).

(** The mean coordinate along [axis] of the pixels of label [v]. *)
Definition mean_coord (labels : ndarray Z) (v : Z) (axis : nat) : Q :=
  (inject_Z (Z.of_nat (coord_sum labels v axis))
   / inject_Z (Z.of_nat (length (label_pixels labels v))))%Q.

(** [z] is an integer nearest to [q]. *)
Definition nearest_integer (q : Q) (z : Z) : Prop :=
  (Qabs (q - inject_Z z) <= 1 # 2)%Q.

(** Every cell of the table under a column of the table is a finite
    number (an IoU value or the sentinel). *)
Definition numeric (df : DataFrame) : Prop :=
  ∀ row c, row ∈ rows df → c ∈ columns df → ∃ q, row !! c = Some (FNum q).

(** *** The claims that the code refutes, as stated *)

(** Centroids are the mean positions rounded to the nearest integers. *)
Definition centroids_rounded (measure_label : ndarray bool → ndarray Z)
    (labels : ndarray Z) (background : Z) : Prop :=
  let '(centroids, centroid_labels) :=
    calculate_centroids measure_label labels false background in
  ∀ i v c axis z,
    centroid_labels !! i = Some v → centroids !! i = Some c →
    c !! axis = Some z →
    nearest_integer (mean_coord labels v axis) z.

(** The table has one row per sample, in order, holding the sample index
    and, for each named label, its IoU when its ID is among the ground
    truth's labels and the sentinel otherwise. *)
Definition iou_df_correct (predicted target : ndarray Z)
    (label_names : list string) (N : nat) : Prop :=
  ∃ df, calculate_iou_df predicted target label_names = Ok df
    ∧ length (rows df) = N
    ∧ ∀ i, (i < N)%nat →
        ∃ row, rows df !! i = Some row
          ∧ row !! "batch_idx"%string = Some (of_int (Z.of_nat i))
          ∧ ∀ pi p, label_names !! pi = Some p →
              row !! p
              = Some (if bool_decide (Z.of_nat pi ∈ Np.unique (subarray target i))
                      then iou_of (subarray predicted i) (subarray target i)
                                  (Z.of_nat pi)
                      else sentinel).

(** The grouping compiler fails whenever an old name of the table is
    unknown, and otherwise returns the map from old IDs to the position of
    their category. *)
Definition grouping_compiles (semantic_remap_dict : gmap string (list string))
    (new_part_list : list string) : Prop :=
  ((∃ g olds o, semantic_remap_dict !! g = Some olds ∧ o ∈ olds ∧ o ∉ PART_LIST)
   → ∃ e, semantic_remap_dict2remap_dict semantic_remap_dict new_part_list = Raise e)
  ∧ ((∀ g olds o, semantic_remap_dict !! g = Some olds → o ∈ olds → o ∈ PART_LIST)
     → ∃ m, semantic_remap_dict2remap_dict semantic_remap_dict new_part_list = Ok m
         ∧ ∀ i g olds o k,
             new_part_list !! i = Some g → semantic_remap_dict !! g = Some olds →
             o ∈ olds → list_index PART_LIST o = Ok k →
             m !! Z.of_nat k = Some (Z.of_nat i)).

(** A batch of [N] maps resizes to a batch of [N] maps, slice by slice as
    in the 2-D case. *)
Definition resize_batch_correct
    (cv2_resize : ndarray Z → nat * nat → interpolation → result (ndarray Z))
    (labels : ndarray Z) (size : nat * nat) (N : nat) (target : list nat) : Prop :=
  ∃ out, resize_labels cv2_resize labels size = Ok out
    ∧ shape out = N :: target
    ∧ ∀ i, (i < N)%nat →
        resize_labels cv2_resize (subarray labels i) size = Ok (subarray out i).

(** The value a pixel of label [x] holds after the items of a table were
    applied in sequence to a pixel that held [cur]. *)
Definition run_pixel (items : list (Z * Z)) (x cur : Z) : Z :=
  foldl (λ c (it : Z * Z), if Z.eqb x it.1 then it.2 else c) cur items.

(** The mean the reducer takes of column [c]: sentinel cells are masked,
    NaN cells skipped. *)
Definition column_mean (df : DataFrame) (c : string) : npfloat :=
  nanmean (column (where_ne (-1) df) c).

(** The finite numbers among some cells. *)
Definition numbers (cells : list npfloat) : list Q :=
  omap (λ x, match x with FNum q => Some q | _ => None end) cells.

(** The arithmetic mean of rationals, NaN for none. *)
Definition mean_of (qs : list Q) : npfloat :=
  match qs with
  | [] => FNaN
  | _ => FNum (Qred (foldr Qplus 0%Q qs / inject_Z (Z.of_nat (length qs))))
  end.

(** The cells of a column that are not the sentinel. *)
Definition non_sentinel (cells : list npfloat) : list npfloat :=
  filter (λ x, ne x (-1) = true) cells.

(** A table of two samples in which label "threes" never occurs in the
    ground truth. *)
Definition example_iou_table : DataFrame :=
  {| columns := ["batch_idx"; "ones"; "threes"]%string;
     rows := [ {[ "batch_idx"%string := FNum 0;
                  "ones"%string := FNum (1 # 2);
                  "threes"%string := FNum (-1) ]};
               {[ "batch_idx"%string := FNum 1;
                  "ones"%string := FNum (-1);
                  "threes"%string := FNum (-1) ]} ] |}.

(** A connected-component labelling that finds no component; it stands
    for [skimage.measure.label] where the labelling is not consulted. *)
Definition no_components (mask : ndarray bool) : ndarray Z :=
  NdArray (shape mask) (replicate (length (data mask)) 0).

(** A map whose label 1 has mean position (7/4, 3/4). *)
Definition example_label_map : ndarray Z :=
  NdArray [3; 3]%nat [0; 0; 0;
                      1; 0; 0;
                      1; 1; 1].

(** The arrays of the docstring examples of [calculate_iou_df] and
    [calculate_overall_iou_from_df]:
<<
    A = np.ones((10, 10), dtype=np.int)
    B = np.ones((10, 10), dtype=np.int)
    B[:5, :5] = 0
    B[5:, 5:] = 1
    B[5:, :5] = 2
    predicted = np.stack([A] * 10, axis=0)
    target = np.stack([B] * 10, axis=0)
    label_names = ["zeros", "ones", "twos", "threes"]
>> *)
Definition docstring_A : list Z := replicate 100 1.

Definition docstring_B : list Z :=
  r ← seq 0 10; c ← seq 0 10;
  [if (c <? 5)%nat then (if (r <? 5)%nat then 0 else 2) else 1].

Definition docstring_predicted : ndarray Z :=
  NdArray [10; 10; 10]%nat (_ ← seq 0 10; docstring_A).

Definition docstring_target : ndarray Z :=
  NdArray [10; 10; 10]%nat (_ ← seq 0 10; docstring_B).

Definition docstring_label_names : list string :=
  ["zeros"; "ones"; "twos"; "threes"]%string.

(** [df.values]: the cells of a table, row by row in column order. *)
Definition values (df : DataFrame) : list (list npfloat) :=
  (λ row, (λ c, cell row c) <$> columns df) <$> rows df.

(** ** Further functions of [denseposelib] *)

(** *** Boolean-mask indexing of whole arrays *)

(** [a[mask]] for a boolean mask of the shape of [a]: the selected
    entries in buffer order, as a 1-D array. *)
Definition getitem_bool {A : Type} (a : ndarray A) (mask : ndarray bool)
  : result (list A) :=
  if decide (shape mask = shape a)
  then Ok (snd <$> filter (λ p : bool * A, p.1 = true) (zip (data mask) (data a)))
  else Raise IndexError.

(** The selected positions of [old] take the entries of [values] in turn. *)
Fixpoint scatter {A : Type} (mask : list bool) (values old : list A) : list A :=
  match mask, old with
  | m :: mask', x :: old' =>
      if m then
        match values with
        | v :: values' => v :: scatter mask' values' old'
        | [] => x :: scatter mask' [] old'
        end
      else x :: scatter mask' values old'
  | _, _ => old
  end.

(** [a[mask] = values] for a 1-D array of values: there must be exactly as
    many values as selected positions. *)
Definition setitem_bool {A : Type} (a : ndarray A) (mask : ndarray bool)
    (values : list A) : result (ndarray A) :=
  if decide (shape mask = shape a) then
    if decide (length values = count_true (data mask))
    then Ok (NdArray (shape a) (scatter (data mask) values (data a)))
    else Raise ValueError
  else Raise IndexError.

(** *** Part filter
<<
    new_part_map = np.zeros_like(part_map)
    for i in included_parts:
        mask = part_map == i
        new_part_map[mask] = part_map[mask]
    return new_part_map
>> *)
Definition filter_parts (part_map : ndarray Z) (included_parts : list Z)
  : result (ndarray Z) :=
  for_each
    (λ new_part_map i,
       let mask := eq_scalar part_map i in
       selected ← getitem_bool part_map mask;
       setitem_bool new_part_map mask selected)
    included_parts (zeros_like part_map).


(** *** Centroid plot *)

(** One call [ax.text(x, y, s, fontsize=10, bbox=props,
    horizontalalignment="center")]; font size, box and alignment are the
    same in every call. *)
Record text_call : Type := TextCall {
  text_x : Z;
  text_y : Z;
  text_s : string
}.

(** [p[i]] on a 1-D array *)
Definition item {A : Type} (p : list A) (i : nat) : result A :=
  match p !! i with
  | Some x => Ok x
  | None => Raise IndexError
  end.

(** The axis is the sequence of text calls made on it.
<<
    for p, t in zip(centroids, texts):
        if np.all(p > 0):
            ax.text(p[1], p[0], t, ...)
>> *)
Definition plot_centroids (ax : list text_call) (centroids : list (list Z))
    (texts : list string) : result (list text_call) :=
  for_each
    (λ ax '(p, t),
       if forallb (λ z, 0 <? z) p then
         x ← item p 1;
         y ← item p 0;
         Ok (ax ++ [TextCall x y t])
       else Ok ax)
    (zip centroids texts) ax.

(** The text call that a centroid with two coordinates gets, if any. *)
Definition annotation (entry : list Z * string) : option text_call :=
  match entry.1 with
  | [row; col] =>
      if (0 <? row) && (0 <? col) then Some (TextCall col row entry.2) else None
  | _ => None
  end.

(** A connected-component labelling that takes every non-empty mask for
    one component. *)
Definition one_component (mask : ndarray bool) : ndarray Z :=
  NdArray (shape mask) ((λ b : bool, if b then 1 else 0) <$> data mask).

(** *** IUV loader *)

(** [np.dsplit(a, sections)]: the array is cut along its third axis into
    [sections] arrays of equal depth; fewer than three axes and a depth
    that [sections] does not divide are refused. *)
Definition dsplit {A : Type} (a : ndarray A) (sections : nat)
  : result (list (ndarray A)) :=
  match shape a with
  | h :: w :: c :: rest =>
      if decide (sections = 0%nat) then Raise ZeroDivisionError
      else if decide (c mod sections = 0)%nat then
        let each := (c / sections)%nat in
        let inner := numel rest in
        Ok ((λ j, NdArray (h :: w :: each :: rest)
                    (p ← seq 0 (h * w);
                     take (each * inner)
                       (drop (p * (c * inner) + j * (each * inner)) (data a))))
              <$> seq 0 sections)
      else Raise ValueError
  | _ => Raise ValueError
  end.

Section LoadIuv.

(** [cv2.imread(path, -1)]: the stored image as an array, [None] when the
    file cannot be read. *)
Variable imread : string → option (ndarray Z).

(** [np.dsplit] takes [None] for an array without axes.
<<
    iuv = cv2.imread(iuv_path, -1)
    i, u, v = list(map(np.squeeze, np.dsplit(iuv, 3)))
    return i, u, v
>> *)
Definition load_iuv (iuv_path : string)
  : result (ndarray Z * ndarray Z * ndarray Z) :=
  match imread iuv_path with
  | None => Raise ValueError
  | Some iuv =>
      pieces ← dsplit iuv 3;
      match squeeze <$> pieces with
      | [i; u; v] => Ok (i, u, v)
      | _ => Raise ValueError
      end
  end.

End LoadIuv.

(** ** tfutils.layers *)

Module Layers.












End Layers.

(** *** Label remapper on arrays with an integer dtype *)

Module Dtype.

(** numpy's integer dtypes. *)
Inductive dtype : Set :=
  | uint8 | int8 | uint16 | int16 | uint32 | int32 | uint64 | int64.

Definition bits (dt : dtype) : Z :=
  match dt with
  | uint8 | int8 => 8
  | uint16 | int16 => 16
  | uint32 | int32 => 32
  | uint64 | int64 => 64
  end.

Definition signed (dt : dtype) : bool :=
  match dt with
  | int8 | int16 | int32 | int64 => true
  | _ => false
  end.

(** [np.iinfo(dt).min] and [np.iinfo(dt).max] *)
Definition iinfo_min (dt : dtype) : Z :=
  if signed dt then - 2 ^ (bits dt - 1) else 0.

Definition iinfo_max (dt : dtype) : Z :=
  if signed dt then 2 ^ (bits dt - 1) - 1 else 2 ^ bits dt - 1.

Definition representable (dt : dtype) (v : Z) : Prop :=
  iinfo_min dt <= v <= iinfo_max dt.

(** The element a Python integer becomes when it is stored in an array
    of type [dt]: its value modulo [2 ^ bits], read in the range of [dt]
    (the silent conversion of numpy 1.x for integers of up to 64 bits;
    wider integers are refused with [OverflowError], a case the
    statements below exclude by taking values that fit the dtype). *)
Definition astype (dt : dtype) (v : Z) : Z :=
  let m := v mod 2 ^ bits dt in
  if signed dt && (2 ^ (bits dt - 1) <=? m) then m - 2 ^ bits dt else m.

(** An integer array: its dtype and its elements. *)
Record int_array : Type := IntArray {
  dtype_of : dtype;
  values : ndarray Z
}.

(** [np.zeros_like(a)] has the dtype of [a]. *)
Definition zeros_like (a : int_array) : int_array :=
  IntArray (dtype_of a) (Np.zeros_like (values a)).

(** [a == v] for a Python integer [v] *)
Definition eq_scalar (a : int_array) (v : Z) : ndarray bool :=
  Np.eq_scalar (values a) v.

(** [a[mask] = v] for a Python integer [v]: the value is converted to the
    dtype of [a] on the way in. *)
Definition setitem_mask (a : int_array) (mask : ndarray bool) (v : Z)
  : int_array :=
  IntArray (dtype_of a) (Np.setitem_mask (values a) mask (astype (dtype_of a) v)).

(**
<<
    new_part_map = np.zeros_like(part_map)
    for old_id, new_id in remap_dict.items():
        mask = part_map == old_id
        new_part_map[mask] = new_id
    return new_part_map
>> *)
Definition remap_parts_items (part_map : int_array) (items : list (Z * Z))
  : int_array :=
  foldl (λ new_part_map '(old_id, new_id),
           let mask := eq_scalar part_map old_id in
           setitem_mask new_part_map mask new_id)
        (zeros_like part_map) items.

(** The table is enumerated by [map_to_list], as for the remapper on
    unbounded labels. *)
Definition remap_parts (part_map : int_array) (remap_dict : gmap Z Z)
  : int_array :=
  remap_parts_items part_map (map_to_list remap_dict).

End Dtype.



(** * Properties *)

(** ** Label remapper *)

Section RemapLoop.

Variable part_map : ndarray Z.

Lemma zip_with_run_pixel_nil (xs cs : list Z) :
  length cs = length xs → zip_with (run_pixel []) xs cs = cs.
Proof.
  revert cs. induction xs as [|x xs IH]; intros [|c cs] Hl; simpl in *; try done.
  f_equal. apply IH. lia.
Qed.

Lemma zip_with_run_pixel_cons it items (xs cs : list Z) :
  zip_with (run_pixel (it :: items)) xs cs
  = zip_with (run_pixel items) xs
      (zip_with (λ (m : bool) c, if m then it.2 else c)
                ((λ x, Z.eqb x it.1) <$> xs) cs).
Proof.
  revert cs. induction xs as [|x xs IH]; intros [|c cs]; simpl; try done.
  f_equal. apply IH.
Qed.

(** The loop of [remap_parts], started from any array of the size of
    [part_map], runs [run_pixel] on every pixel. *)
Lemma remap_loop items new_part_map :
  length (data new_part_map) = length (data part_map) →
  foldl (λ new_part_map '(old_id, new_id),
           let mask := eq_scalar part_map old_id in
           setitem_mask new_part_map mask new_id)
        new_part_map items
  = NdArray (shape new_part_map)
            (zip_with (run_pixel items) (data part_map) (data new_part_map)).
Proof.
  revert new_part_map.
  induction items as [|[old_id new_id] items IH]; intros npm Hlen; simpl.
  - rewrite zip_with_run_pixel_nil by done. by destruct npm.
  - rewrite IH.
    + simpl. by rewrite zip_with_run_pixel_cons.
    + simpl. rewrite length_zip_with, length_fmap. lia.
Qed.

End RemapLoop.

Lemma run_pixel_miss (items : list (Z * Z)) (x cur : Z) :
  x ∉ items.*1 → run_pixel items x cur = cur.
Proof.
  revert cur. induction items as [|[k v] items IH]; intros cur Hx; [done|].
  unfold run_pixel in *. simpl in *.
  apply not_elem_of_cons in Hx as [Hne Hx].
  destruct (Z.eqb_spec x k); [done|]. by apply IH.
Qed.

(** With pairwise distinct keys at most one item matches a label. *)
Lemma run_pixel_hit (items : list (Z * Z)) (x v cur : Z) :
  NoDup items.*1 → (x, v) ∈ items → run_pixel items x cur = v.
Proof.
  revert cur. induction items as [|[k w] items IH]; intros cur Hnd Hin.
  { by apply elem_of_nil in Hin. }
  simpl in Hnd. apply NoDup_cons in Hnd as [Hk Hnd].
  apply elem_of_cons in Hin as [Heq|Hin].
  - injection Heq as <- <-.
    change (run_pixel ((x, v) :: items) x cur)
      with (run_pixel items x (if Z.eqb x x then v else cur)).
    rewrite Z.eqb_refl. by apply run_pixel_miss.
  - change (run_pixel ((k, w) :: items) x cur)
      with (run_pixel items x (if Z.eqb x k then w else cur)).
    by apply IH.
Qed.

(** Whatever the order in which the items of the table are enumerated, the
    loop computes the pixelwise lookup. *)
Lemma remap_parts_items_lookup (part_map : ndarray Z) (remap_dict : gmap Z Z)
    (items : list (Z * Z)) :
  items ≡ₚ map_to_list remap_dict →
  remap_parts_items part_map items
  = NdArray (shape part_map)
            ((λ x, default 0 (remap_dict !! x)) <$> data part_map).
Proof.
  intros Hperm. unfold remap_parts_items.
  rewrite remap_loop by (simpl; by rewrite length_replicate).
  simpl. f_equal.
  assert (Hnd : NoDup items.*1).
  { rewrite Hperm. apply NoDup_fst_map_to_list. }
  assert (Hpix : ∀ x, run_pixel items x 0 = default 0 (remap_dict !! x)).
  { intros x. destruct (remap_dict !! x) as [v|] eqn:Hx; simpl.
    - apply run_pixel_hit; [done|]. rewrite Hperm. by apply elem_of_map_to_list.
    - apply run_pixel_miss. intros Hin.
      apply list_elem_of_fmap in Hin as ([k v] & -> & Hin). simpl in Hx.
      rewrite Hperm in Hin. apply elem_of_map_to_list in Hin. congruence. }
  generalize (data part_map). intros l.
  induction l as [|x l IH]; simpl; [done|]. by rewrite Hpix, IH.
Qed.

(** *** Arrays with an integer dtype *)

Lemma astype_representable (dt : Dtype.dtype) (v : Z) :
  Dtype.representable dt v → Dtype.astype dt v = v.
Proof.
  unfold Dtype.representable, Dtype.astype, Dtype.iinfo_min, Dtype.iinfo_max.
  destruct dt; cbn [Dtype.signed Dtype.bits andb];
    intros Hv;
    repeat match goal with
           | |- context [2 ^ ?n] =>
               let c := eval vm_compute in (2 ^ n) in change (2 ^ n) with c in *
           | H : context [2 ^ ?n] |- _ =>
               let c := eval vm_compute in (2 ^ n) in change (2 ^ n) with c in *
           end;
    try (apply Z.mod_small; lia);
    match goal with
    | |- context [?a <=? ?b] => destruct (Z.leb_spec a b)
    end; Z.div_mod_to_equations; lia.
Qed.

(** The loop on a typed array is the loop on its elements with the
    values of the items converted. *)
Lemma typed_remap_loop (part_map acc : Dtype.int_array) (items : list (Z * Z)) :
  foldl (λ new_part_map '(old_id, new_id),
           let mask := Dtype.eq_scalar part_map old_id in
           Dtype.setitem_mask new_part_map mask new_id)
        acc items
  = Dtype.IntArray (Dtype.dtype_of acc)
      (foldl (λ new_part_map '(old_id, new_id),
                let mask := eq_scalar (Dtype.values part_map) old_id in
                setitem_mask new_part_map mask new_id)
             (Dtype.values acc)
             (prod_map id (Dtype.astype (Dtype.dtype_of acc)) <$> items)).
Proof.
  revert acc. induction items as [|[old_id new_id] items IH]; intros acc.
  - by destruct acc.
  - cbn [foldl fmap list_fmap prod_map fst snd]. rewrite IH. done.
Qed.

Lemma typed_remap_parts_data (part_map : Dtype.int_array)
    (remap_dict : gmap Z Z) :
  Dtype.remap_parts part_map remap_dict
  = Dtype.IntArray (Dtype.dtype_of part_map)
      (NdArray (shape (Dtype.values part_map))
         ((λ x, default 0
                  (Dtype.astype (Dtype.dtype_of part_map) <$> remap_dict !! x))
            <$> data (Dtype.values part_map))).
Proof.
  unfold Dtype.remap_parts, Dtype.remap_parts_items.
  rewrite typed_remap_loop. cbn [Dtype.zeros_like Dtype.dtype_of Dtype.values].
  f_equal.
  pose proof (remap_parts_items_lookup (Dtype.values part_map)
                (Dtype.astype (Dtype.dtype_of part_map) <$> remap_dict)
                (prod_map id (Dtype.astype (Dtype.dtype_of part_map))
                   <$> map_to_list remap_dict)) as Hloop.
  unfold remap_parts_items in Hloop. rewrite Hloop.
  - f_equal. apply list_fmap_ext. intros _ x _. by rewrite lookup_fmap.
  - by rewrite map_to_list_fmap.
Qed.

(** With values that fit the dtype the typed remapper is the pixelwise
    lookup. *)
Lemma typed_remap_parts_fit (part_map : Dtype.int_array)
    (remap_dict : gmap Z Z) :
  (∀ x v, x ∈ data (Dtype.values part_map) → remap_dict !! x = Some v →
          Dtype.representable (Dtype.dtype_of part_map) v) →
  Dtype.remap_parts part_map remap_dict
  = Dtype.IntArray (Dtype.dtype_of part_map)
      (NdArray (shape (Dtype.values part_map))
         ((λ x, default 0 (remap_dict !! x)) <$> data (Dtype.values part_map))).
Proof.
  intros Hfit. rewrite typed_remap_parts_data. f_equal. f_equal.
  apply list_fmap_ext. intros i x Hx.
  destruct (remap_dict !! x) as [v|] eqn:Hv; [|done]. cbn. 
  apply astype_representable, (Hfit x); [|done].
  by eapply list_elem_of_lookup_2.
Qed.




(** C8. The output of [remap_parts] does not depend on the order in which
    the entries of the table are applied: two enumerations of the same
    table give equal output maps. *)
Theorem remap_parts_order_irrelevant (part_map : ndarray Z)
    (remap_dict : gmap Z Z) (items1 items2 : list (Z * Z)) :
  items1 ≡ₚ map_to_list remap_dict →
  items2 ≡ₚ map_to_list remap_dict →
  remap_parts_items part_map items1 = remap_parts_items part_map items2.
Proof.
  intros H1 H2.
  by rewrite (remap_parts_items_lookup _ remap_dict items1),
             (remap_parts_items_lookup _ remap_dict items2).
Qed.

Lemma remap_parts_order_irrelevant_witness :
  remap_parts_items (NdArray [2; 2]%nat [1; 2; 3; 1]) [(1, 7); (2, 9)]
  = remap_parts_items (NdArray [2; 2]%nat [1; 2; 3; 1]) [(2, 9); (1, 7)].
Proof.
  apply (remap_parts_order_irrelevant _ {[1 := 7; 2 := 9]}).
  - vm_compute. apply perm_swap.
  - vm_compute. reflexivity.
Defined.

(** ** IoU scorer *)

Lemma count_true_and (v : Z) (L P : list Z) :
  count_true (zip_with andb ((λ x, Z.eqb x v) <$> L) ((λ x, Z.eqb x v) <$> P))
  = length (filter (λ p : Z * Z, p.1 = v ∧ p.2 = v) (zip P L)).
Proof.
  revert P. induction L as [|l L IH]; intros [|p P]; simpl; try done.
  rewrite filter_cons. unfold count_true in *. simpl. rewrite IH.
  destruct (Z.eqb_spec l v), (Z.eqb_spec p v); case_decide; simpl in *;
    try done; tauto.
Qed.

Lemma count_true_or (v : Z) (L P : list Z) :
  count_true (zip_with orb ((λ x, Z.eqb x v) <$> L) ((λ x, Z.eqb x v) <$> P))
  = length (filter (λ p : Z * Z, p.1 = v ∨ p.2 = v) (zip P L)).
Proof.
  revert P. induction L as [|l L IH]; intros [|p P]; simpl; try done.
  rewrite filter_cons. unfold count_true in *. simpl. rewrite IH.
  destruct (Z.eqb_spec l v), (Z.eqb_spec p v); case_decide; simpl in *;
    try done; tauto.
Qed.

Lemma setitem_middle {B : Type} (pre : list B) (x y : B) (rest : list B) :
  setitem (pre ++ x :: rest) (length pre) y = Ok (pre ++ y :: rest).
Proof.
  unfold setitem. rewrite decide_True.
  - f_equal. rewrite insert_app_r_alt by lia.
    by rewrite Nat.sub_diag.
  - rewrite length_app. simpl. lia.
Qed.

Section IouLoop.

Variables pred label : ndarray Z.
Hypothesis Hshape : shape pred = shape label.

Lemma logical_and_masks (v : Z) :
  logical_and (eq_scalar label v) (eq_scalar pred v)
  = Ok (NdArray (shape label)
          (zip_with andb ((λ x, Z.eqb x v) <$> data label)
                         ((λ x, Z.eqb x v) <$> data pred))).
Proof. unfold logical_and, elementwise. simpl. by rewrite decide_True. Qed.

Lemma logical_or_masks (v : Z) :
  logical_or (eq_scalar label v) (eq_scalar pred v)
  = Ok (NdArray (shape label)
          (zip_with orb ((λ x, Z.eqb x v) <$> data label)
                        ((λ x, Z.eqb x v) <$> data pred))).
Proof. unfold logical_or, elementwise. simpl. by rewrite decide_True. Qed.

Let inter (v : Z) : Q := inject_Z (Z.of_nat (intersection_count pred label v)).
Let union (v : Z) : Q := inject_Z (Z.of_nat (union_count pred label v)).

(** The loop fills the two count arrays from left to right. *)
Lemma iou_loop (done todo : list Z) (restI restU : list Q) :
  length restI = length todo → length restU = length todo →
  for_each
    (λ '(Intersection, Union') '(index, val),
       let pred_i := eq_scalar pred val in
       let label_i := eq_scalar label val in
       both ← logical_and label_i pred_i;
       Intersection ← setitem Intersection index (inject_Z (Np.sum both));
       either ← logical_or label_i pred_i;
       Union' ← setitem Union' index (inject_Z (Np.sum either));
       Ok (Intersection, Union'))
    (zip (seq (length done) (length todo)) todo)
    ((inter <$> done) ++ restI, (union <$> done) ++ restU)
  = Ok (inter <$> (done ++ todo), union <$> (done ++ todo)).
Proof.
  revert done restI restU.
  induction todo as [|v todo IH]; intros done restI restU HI HU.
  - destruct restI, restU; try done. simpl. by rewrite !app_nil_r.
  - destruct restI as [|i0 restI], restU as [|u0 restU]; try done.
    simpl in HI, HU.
    cbn [length seq zip zip_with for_each].
    rewrite logical_and_masks, logical_or_masks.
    unfold mbind, result_bind. cbn [bind].
    rewrite <- (length_fmap inter done) at 1.
    rewrite setitem_middle. cbn [bind].
    rewrite <- (length_fmap union done) at 1.
    rewrite setitem_middle. cbn [bind].
    unfold Np.sum. cbn [data].
    rewrite count_true_and, count_true_or.
    specialize (IH (done ++ [v]) restI restU).
    rewrite length_app, !fmap_app in IH. simpl in IH.
    rewrite Nat.add_1_r, <- !app_assoc in IH. simpl in IH.
    rewrite !fmap_app.
    exact (IH ltac:(lia) ltac:(lia)).
Qed.

(** With maps of one shape, [compute_iou] returns the Jaccard index of
    every distinct label of the ground truth. *)
Lemma compute_iou_ok :
  compute_iou pred label
  = Ok (iou_of pred label <$> Np.unique label, Np.unique label).
Proof.
  unfold compute_iou.
  pose proof (iou_loop [] (Np.unique label)
                (zeros (length (Np.unique label)))
                (zeros (length (Np.unique label)))) as H.
  simpl in H. unfold enumerate. rewrite H by apply length_replicate.
  unfold mbind, result_bind. simpl. f_equal. f_equal.
  generalize (Np.unique label). intros l.
  induction l as [|v l IH]; [done|].
  cbn [fmap list_fmap zip_with]. f_equal. exact IH.
Qed.

End IouLoop.

(** *** Distinct labels and pixel counts *)

Lemma elem_of_unique (a : ndarray Z) (v : Z) : v ∈ Np.unique a ↔ v ∈ data a.
Proof.
  unfold Np.unique. rewrite merge_sort_Permutation. apply elem_of_remove_dups.
Qed.

Lemma NoDup_unique (a : ndarray Z) : NoDup (Np.unique a).
Proof.
  unfold Np.unique. rewrite merge_sort_Permutation. apply NoDup_remove_dups.
Qed.

Lemma filter_nonempty {A : Type} (P : A → Prop) `{∀ x, Decision (P x)}
    (l : list A) (x : A) :
  x ∈ l → P x → (0 < length (filter P l))%nat.
Proof.
  intros Hin HP.
  assert (Hf : x ∈ filter P l) by by apply list_elem_of_filter.
  destruct (filter P l); [by apply elem_of_nil in Hf | simpl; lia].
Qed.

(** A label of the ground truth lies in its own union mask. *)
Lemma union_count_pos (pred label : ndarray Z) (v : Z) :
  length (data pred) = length (data label) →
  v ∈ data label → (0 < union_count pred label v)%nat.
Proof.
  intros Hlen Hv. apply list_elem_of_lookup in Hv as [k Hk].
  destruct (lookup_lt_is_Some_2 (data pred) k) as [p Hp].
  { rewrite Hlen. by eapply lookup_lt_Some. }
  unfold union_count. apply (filter_nonempty _ _ (p, v)); [|by right].
  apply list_elem_of_lookup. exists k.
  by rewrite lookup_zip_with, Hp; simpl; rewrite Hk.
Qed.

Lemma intersection_le_union (pred label : ndarray Z) (v : Z) :
  (intersection_count pred label v ≤ union_count pred label v)%nat.
Proof.
  unfold intersection_count, union_count.
  generalize (zip (data pred) (data label)). intros l.
  induction l as [|p l IH]; [done|].
  rewrite !filter_cons. repeat case_decide; simpl; try lia; tauto.
Qed.

Lemma counts_self (L : ndarray Z) (v : Z) :
  intersection_count L L v = union_count L L v.
Proof.
  unfold intersection_count, union_count.
  generalize (data L). intros l.
  induction l as [|x l IH]; [done|].
  simpl. rewrite !filter_cons. simpl.
  repeat case_decide; simpl; try (f_equal; exact IH); tauto.
Qed.

(** *** Division of counts *)

Lemma Qeq_bool_count (n : nat) :
  Qeq_bool (inject_Z (Z.of_nat n)) 0 = bool_decide (n = 0%nat).
Proof.
  destruct n as [|n]; [done|].
  rewrite bool_decide_false by done.
  destruct (Qeq_bool _ _) eqn:E; [|done].
  apply Qeq_bool_iff in E. unfold Qeq in E. simpl in E. lia.
Qed.

Lemma true_divide_counts (m n : nat) :
  (0 < n)%nat →
  true_divide (inject_Z (Z.of_nat m)) (inject_Z (Z.of_nat n))
  = FNum (Qred (inject_Z (Z.of_nat m) / inject_Z (Z.of_nat n))).
Proof.
  intros Hn. unfold true_divide.
  rewrite Qeq_bool_count, bool_decide_false by lia. done.
Qed.

Lemma true_divide_self (n : nat) :
  (0 < n)%nat →
  true_divide (inject_Z (Z.of_nat n)) (inject_Z (Z.of_nat n)) = FNum 1.
Proof.
  intros Hn. rewrite true_divide_counts by done. f_equal.
  change 1%Q with (Qred 1). apply Qred_complete.
  apply Qmult_inv_r. unfold Qeq. simpl. lia.
Qed.

(** C6. The IoU of a map against itself is 1.0 for every label present in
    the map. *)
Theorem compute_iou_self (L : ndarray Z) :
  ∃ ious, compute_iou L L = Ok (ious, Np.unique L)
    ∧ length ious = length (Np.unique L)
    ∧ (∀ v, v ∈ data L →
         ∃ i, Np.unique L !! i = Some v ∧ ious !! i = Some (FNum 1))
    ∧ (∀ i x, ious !! i = Some x → x = FNum 1).
Proof.
  exists (iou_of L L <$> Np.unique L).
  assert (Hone : ∀ v, v ∈ Np.unique L → iou_of L L v = FNum 1).
  { intros v Hv. unfold iou_of. rewrite counts_self.
    apply true_divide_self, union_count_pos; [done|]. by apply elem_of_unique. }
  split_and!.
  - by apply compute_iou_ok.
  - by rewrite length_fmap.
  - intros v Hv. apply elem_of_unique in Hv as Hu.
    apply list_elem_of_lookup in Hu as [i Hi]. exists i. split; [done|].
    rewrite list_lookup_fmap, Hi. simpl. f_equal. apply Hone.
    by apply elem_of_unique.
  - intros i x Hx. rewrite list_lookup_fmap in Hx.
    destruct (Np.unique L !! i) as [v|] eqn:Hi; [|done].
    injection Hx as <-. apply Hone. by eapply list_elem_of_lookup_2.
Qed.

Lemma same_shape_length {A B : Type} (a : ndarray A) (b : ndarray B) :
  same_shape a b → length (data a) = length (data b).
Proof. intros (Ha & Hb & Hs). unfold wf in *. congruence. Qed.

(** C10. Every label [compute_iou] iterates over is a value of the ground
    truth, so its union count is positive and its IoU is a well-defined
    number (the exact quotient of the two counts), never NaN. *)
Theorem compute_iou_well_defined (pred label : ndarray Z) :
  same_shape pred label →
  ∃ ious, compute_iou pred label = Ok (ious, Np.unique label)
    ∧ length ious = length (Np.unique label)
    ∧ ∀ i v, Np.unique label !! i = Some v →
        v ∈ data label
        ∧ (0 < union_count pred label v)%nat
        ∧ ∃ q, ious !! i = Some (FNum q)
            ∧ (q == inject_Z (Z.of_nat (intersection_count pred label v))
                    / inject_Z (Z.of_nat (union_count pred label v)))%Q.
Proof.
  intros Hsame. pose proof (same_shape_length _ _ Hsame) as Hlen.
  destruct Hsame as (_ & _ & Hshape).
  exists (iou_of pred label <$> Np.unique label). split_and!.
  - by apply compute_iou_ok.
  - by rewrite length_fmap.
  - intros i v Hi.
    assert (Hv : v ∈ data label).
    { apply elem_of_unique. by eapply list_elem_of_lookup_2. }
    pose proof (union_count_pos _ _ _ Hlen Hv) as Hpos.
    split_and!; [done..|].
    eexists. rewrite list_lookup_fmap, Hi. simpl. split.
    + unfold iou_of. by rewrite true_divide_counts.
    + apply Qred_correct.
Qed.

Lemma compute_iou_well_defined_witness :
  ∃ ious,
    compute_iou (NdArray [2; 2]%nat [1; 1; 0; 2]) (NdArray [2; 2]%nat [1; 0; 0; 2])
    = Ok (ious, Np.unique (NdArray [2; 2]%nat [1; 0; 0; 2]))
    ∧ length ious = length (Np.unique (NdArray [2; 2]%nat [1; 0; 0; 2])).
Proof.
  destruct (compute_iou_well_defined
              (NdArray [2; 2]%nat [1; 1; 0; 2]) (NdArray [2; 2]%nat [1; 0; 0; 2]))
    as (ious & H1 & H2 & _).
  - by vm_compute.
  - by exists ious.
Defined.

(** ** Overall-score reducer *)

Lemma cell_keep_ne (q : Q) (row : gmap string npfloat) (c : string) :
  cell (keep_ne q <$> row) c = keep_ne q (cell row c).
Proof. unfold cell. rewrite lookup_fmap. by destruct (row !! c). Qed.

Lemma column_where_ne (q : Q) (df : DataFrame) (c : string) :
  column (where_ne q df) c = keep_ne q <$> column df c.
Proof.
  unfold column, where_ne. simpl. rewrite <- !list_fmap_compose.
  apply list_fmap_ext. intros i row _. apply cell_keep_ne.
Qed.

(** Masking the sentinel and then skipping NaN is taking the mean over the
    cells that are not the sentinel. *)
Lemma nanmean_keep_ne (cells : list npfloat) :
  nanmean (keep_ne (-1) <$> cells) = nanmean (non_sentinel cells).
Proof.
  unfold nanmean, non_sentinel.
  assert (H : filter (λ x, is_nan x = false) (keep_ne (-1) <$> cells)
            = filter (λ x, is_nan x = false)
                (filter (λ x, ne x (-1) = true) cells)).
  { induction cells as [|x cells IH]; [done|].
    cbn [fmap list_fmap]. rewrite !filter_cons, IH.
    unfold keep_ne.
    destruct x as [a| |]; simpl; [destruct (Qeq_bool a (-1)); simpl|..];
      repeat case_decide; rewrite ?filter_cons; repeat case_decide;
      simpl in *; try done; congruence. }
  by rewrite H.
Qed.

Lemma column_mean_non_sentinel (df : DataFrame) (c : string) :
  column_mean df c = nanmean (non_sentinel (column df c)).
Proof. unfold column_mean. by rewrite column_where_ne, nanmean_keep_ne. Qed.

Lemma mean_row_lookup (f : string → npfloat) (cols : list string)
    (row : gmap string npfloat) (c : string) :
  foldl (λ row c, <[c := f c]> row) row cols !! c
  = if decide (c ∈ cols) then Some (f c) else row !! c.
Proof.
  revert row. induction cols as [|d cols IH]; intros row; cbn [foldl].
  - case_decide as Hc; [by apply elem_of_nil in Hc | done].
  - rewrite IH.
    destruct (decide (c = d)) as [->|Hne].
    + rewrite lookup_insert_eq.
      destruct (decide (d ∈ cols)), (decide (d ∈ d :: cols));
        try done; rewrite elem_of_cons in *; tauto.
    + rewrite lookup_insert_ne by done.
      destruct (decide (c ∈ cols)), (decide (c ∈ d :: cols));
        try done; rewrite elem_of_cons in *; tauto.
Qed.

(** *** Means of finite cells *)

Lemma foldl_fadd_numbers (a : Q) (qs : list Q) :
  ∃ b, foldl fadd (FNum a) (FNum <$> qs) = FNum b
     ∧ (b == a + foldr Qplus 0 qs)%Q.
Proof.
  revert a. induction qs as [|q qs IH]; intros a; simpl.
  - exists a. split; [done|]. by rewrite Qplus_0_r.
  - destruct (IH (Qred (a + q))) as (b & Hb & Heq). exists b. split; [done|].
    rewrite Heq, Qred_correct. by rewrite Qplus_assoc.
Qed.

Lemma nanmean_numbers (cells : list npfloat) :
  Forall (λ x, is_finite x = true ∨ x = FNaN) cells →
  nanmean cells = mean_of (numbers cells).
Proof.
  intros Hfin.
  assert (H : filter (λ x, is_nan x = false) cells = FNum <$> numbers cells).
  { induction Hfin as [|x cells Hx _ IH]; [done|].
    rewrite filter_cons. unfold numbers in *.
    destruct x as [a| |]; simpl in *; repeat case_decide;
      rewrite ?IH; try done; by destruct Hx. }
  unfold nanmean. rewrite H. unfold mean_of.
  destruct (numbers cells) as [|q qs]; [done|].
  destruct (foldl_fadd_numbers 0 (q :: qs)) as (b & Hb & Heq).
  cbn [fmap list_fmap] in *. rewrite Hb.
  cbn [length fdiv_count]. rewrite length_fmap.
  f_equal. apply Qred_complete. by rewrite Heq, Qplus_0_l.
Qed.

Lemma mean_of_cases (qs : list Q) :
  (qs = [] ∧ mean_of qs = FNaN) ∨ (qs ≠ [] ∧ ∃ q, mean_of qs = FNum q).
Proof. destruct qs; [by left | right]. split; [done | by eexists]. Qed.

Lemma elem_of_numbers (q : Q) (cells : list npfloat) :
  FNum q ∈ cells → q ∈ numbers cells.
Proof. intros H. apply list_elem_of_omap. by exists (FNum q). Qed.

(** A mean over finite-or-NaN cells with a finite cell among them is
    finite. *)
Lemma nanmean_finite (cells : list npfloat) (q : Q) :
  Forall (λ x, is_finite x = true ∨ x = FNaN) cells →
  FNum q ∈ cells → ∃ m, nanmean cells = FNum m.
Proof.
  intros Hfin Hq. rewrite nanmean_numbers by done.
  destruct (mean_of_cases (numbers cells)) as [[Hnil _]|[_ H]]; [|done].
  apply elem_of_numbers in Hq. rewrite Hnil in Hq. by apply elem_of_nil in Hq.
Qed.

Lemma numeric_column (df : DataFrame) (c : string) :
  numeric df → c ∈ columns df →
  Forall (λ x, is_finite x = true) (column df c).
Proof.
  intros Hnum Hc. unfold column. apply Forall_fmap, Forall_forall.
  intros row Hrow. destruct (Hnum row c Hrow Hc) as [q Hq].
  unfold cell. simpl. by rewrite Hq.
Qed.

Lemma non_sentinel_finite (cells : list npfloat) :
  Forall (λ x, is_finite x = true) cells →
  Forall (λ x, is_finite x = true ∨ x = FNaN) (non_sentinel cells).
Proof.
  intros H. unfold non_sentinel. apply Forall_forall. intros x Hx.
  apply list_elem_of_filter in Hx as [_ Hx]. left.
  by eapply Forall_forall in H.
Qed.

(** C3. The reducer returns one row; the mean of each column is taken over
    the cells that are not the sentinel -1 (a sentinel is missing, not
    zero); "overall" is the mean across the means of the columns that are
    not excluded; on a table of finite cells each column mean is the
    arithmetic mean of its non-sentinel values, and "overall" is a finite
    number as soon as one non-excluded column has a non-sentinel entry. *)
Theorem calculate_overall_iou_correct (df : DataFrame)
    (exclude_columns : list string) :
  ∃ row, rows (calculate_overall_iou_from_df df exclude_columns) = [row]
    ∧ (∀ c, c ∈ columns df → c ≠ "overall"%string →
         cell row c = nanmean (non_sentinel (column df c)))
    ∧ cell row "overall"
      = nanmean ((λ c, nanmean (non_sentinel (column df c)))
                   <$> filter (λ c, c ∉ exclude_columns) (columns df))
    ∧ (numeric df →
         (∀ c, c ∈ columns df → c ≠ "overall"%string →
            cell row c = mean_of (numbers (non_sentinel (column df c))))
         ∧ ((∃ c x, c ∈ columns df ∧ (c ∉ exclude_columns)
                    ∧ x ∈ column df c ∧ ne x (-1) = true)
            → ∃ q, cell row "overall" = FNum q)).
Proof.
  set (kept := filter (λ c, c ∉ exclude_columns) (columns df)).
  set (mrow := foldl (λ (row : gmap string npfloat) c,
                        <[c := column_mean df c]> row) ∅ (columns df)).
  assert (Hmrow : ∀ c, c ∈ columns df →
            cell mrow c = nanmean (non_sentinel (column df c))).
  { intros c Hc. unfold cell, mrow.
    rewrite (mean_row_lookup (column_mean df)), decide_True by done.
    simpl. apply column_mean_non_sentinel. }
  assert (Hgrand : (λ c, cell mrow c) <$> kept
            = (λ c, nanmean (non_sentinel (column df c))) <$> kept).
  { apply list_fmap_ext. intros i c Hi. apply Hmrow.
    apply list_elem_of_lookup_2 in Hi.
    by apply list_elem_of_filter in Hi as [_ ?]. }
  exists (<["overall"%string := nanmean ((λ c, cell mrow c) <$> kept)]> mrow).
  assert (Hoverall : cell (<["overall"%string :=
                              nanmean ((λ c, cell mrow c) <$> kept)]> mrow)
                          "overall"
            = nanmean ((λ c, nanmean (non_sentinel (column df c))) <$> kept)).
  { unfold cell at 1. rewrite lookup_insert_eq. by rewrite Hgrand. }
  assert (Hcols : ∀ c, c ∈ columns df → c ≠ "overall"%string →
            cell (<["overall"%string :=
                     nanmean ((λ c, cell mrow c) <$> kept)]> mrow) c
            = nanmean (non_sentinel (column df c))).
  { intros c Hc Hne. unfold cell. rewrite lookup_insert_ne by done.
    by apply Hmrow. }
  split_and!; [done | done | done |].
  intros Hnum.
  assert (Hmean : ∀ c, c ∈ columns df →
            nanmean (non_sentinel (column df c))
            = mean_of (numbers (non_sentinel (column df c)))).
  { intros c Hc. apply nanmean_numbers, non_sentinel_finite.
    by apply numeric_column. }
  split.
  - intros c Hc Hne. rewrite Hcols by done. by apply Hmean.
  - intros (c & x & Hc & Hex & Hx & Hns). rewrite Hoverall.
    pose proof (numeric_column df c Hnum Hc) as Hfin.
    assert (∃ a, x = FNum a) as [a ->].
    { eapply Forall_forall in Hfin; [|done]. destruct x; try done. by eexists. }
    assert (Hin : FNum a ∈ non_sentinel (column df c)).
    { by apply list_elem_of_filter. }
    destruct (mean_of_cases (numbers (non_sentinel (column df c))))
      as [[Hnil _]|[_ [m Hm]]].
    { apply elem_of_numbers in Hin. rewrite Hnil in Hin.
      by apply elem_of_nil in Hin. }
    apply (nanmean_finite _ m).
    + apply Forall_fmap, Forall_forall. intros d Hd. simpl.
      apply list_elem_of_filter in Hd as [_ Hd]. rewrite Hmean by done.
      destruct (mean_of_cases (numbers (non_sentinel (column df d))))
        as [[_ ->]|[_ [? ->]]]; [by right | by left].
    + apply list_elem_of_fmap. exists c. split.
      * by rewrite Hmean.
      * by apply list_elem_of_filter.
Qed.

Lemma calculate_overall_iou_correct_witness :
  ∃ row, rows (calculate_overall_iou_from_df example_iou_table
                 default_exclude_columns) = [row]
    ∧ ∃ q, cell row "overall" = FNum q.
Proof.
  destruct (calculate_overall_iou_correct example_iou_table
              default_exclude_columns)
    as (row & Hrows & _ & _ & Hnum).
  exists row. split; [done|]. apply Hnum.
  - intros r c Hr Hc.
    repeat (apply elem_of_cons in Hr as [->|Hr]);
      try (by apply elem_of_nil in Hr);
      repeat (apply elem_of_cons in Hc as [->|Hc]);
      try (by apply elem_of_nil in Hc);
      eexists; vm_compute; reflexivity.
  - exists "ones"%string, (FNum (1 # 2)). split_and!.
    + apply elem_of_cons; right. apply elem_of_cons; by left.
    + vm_compute. intros H. repeat (apply elem_of_cons in H as [H|H]; [done|]).
      by apply elem_of_nil in H.
    + vm_compute. apply elem_of_cons; by left.
    + done.
Defined.

(** *** Zero unions *)



(** ** Batch aggregator *)

(** Selecting by [v == labels] among distinct labels picks the entry of
    [v], if there is one. *)
Lemma select_by_label {B : Type} (f : Z → B) (v : Z) (labels : list Z) :
  NoDup labels →
  snd <$> filter (λ p : bool * B, p.1 = true)
            (zip ((λ l, Z.eqb v l) <$> labels) (f <$> labels))
  = if decide (v ∈ labels) then [f v] else [].
Proof.
  induction 1 as [|l labels Hl Hnd IH]; [done|].
  cbn [fmap list_fmap zip zip_with]. rewrite filter_cons. cbn [fst].
  fold (zip ((λ l, Z.eqb v l) <$> labels) (f <$> labels)).
  destruct (Z.eqb_spec v l) as [->|Hne].
  - rewrite decide_True by done. cbn [fmap list_fmap snd].
    fold (@fmap list _ _ _ (@snd bool B)). rewrite IH.
    rewrite decide_False by done. rewrite decide_True; [done | by left].
  - rewrite decide_False by done. rewrite IH.
    destruct (decide (v ∈ labels)), (decide (v ∈ l :: labels));
      try done; rewrite elem_of_cons in *; tauto.
Qed.

Section IouRow.

Variables (f : Z → npfloat) (labels : list Z).
Hypothesis Hnd : NoDup labels.

(** The update that one name makes to the row. *)
Let present_step (d : gmap string npfloat) (e : nat * string)
  : gmap string npfloat :=
  if bool_decide (Z.of_nat e.1 ∈ labels) then <[e.2 := f (Z.of_nat e.1)]> d else d.

Lemma present_loop (ps : list (nat * string)) (d : gmap string npfloat) :
  for_each
    (λ (d : gmap string npfloat) '(pi, p),
       if bool_decide (Z.of_nat pi ∈ labels) then
         selected ← getitem_mask (f <$> labels)
                      ((λ l, Z.eqb (Z.of_nat pi) l) <$> labels);
         value ← float_of_squeezed selected;
         Ok (<[p := value]> d)
       else Ok d)
    ps d
  = Ok (foldl present_step d ps).
Proof.
  revert d. induction ps as [|[pi p] ps IH]; intros d; [done|].
  cbn [for_each foldl]. unfold present_step at 2. cbn [fst snd].
  destruct (bool_decide (Z.of_nat pi ∈ labels)) eqn:Hpi.
  - apply bool_decide_eq_true in Hpi.
    unfold getitem_mask. rewrite decide_True by by rewrite !length_fmap.
    rewrite select_by_label, decide_True by done.
    unfold mbind, result_bind. cbn [bind float_of_squeezed]. apply IH.
  - cbn [bind]. apply IH.
Qed.

Lemma present_untouched (ps : list (nat * string)) (d : gmap string npfloat)
    (p : string) :
  p ∉ ps.*2 → foldl present_step d ps !! p = d !! p.
Proof.
  revert d. induction ps as [|[pi0 p0] ps IH]; intros d Hp; [done|].
  cbn [fmap list_fmap snd] in Hp. apply not_elem_of_cons in Hp as [Hne Hp].
  cbn [foldl]. rewrite IH by done. unfold present_step. cbn [fst snd].
  destruct (bool_decide _); [|done]. by rewrite lookup_insert_ne.
Qed.

Lemma present_lookup (ps : list (nat * string)) (d : gmap string npfloat)
    (pi : nat) (p : string) :
  NoDup ps.*2 → (pi, p) ∈ ps →
  foldl present_step d ps !! p
  = if bool_decide (Z.of_nat pi ∈ labels) then Some (f (Z.of_nat pi)) else d !! p.
Proof.
  revert d. induction ps as [|[pi0 p0] ps IH]; intros d Hps Hin.
  { by apply elem_of_nil in Hin. }
  cbn [fmap list_fmap snd] in Hps. apply NoDup_cons in Hps as [Hp0 Hps].
  cbn [foldl]. apply elem_of_cons in Hin as [Heq|Hin].
  - injection Heq as <- <-. rewrite present_untouched by done.
    unfold present_step. cbn [fst snd].
    destruct (bool_decide _); [|done]. by rewrite lookup_insert_eq.
  - rewrite IH by done. destruct (bool_decide _); [done|].
    unfold present_step. cbn [fst snd].
    destruct (bool_decide _); [|done].
    rewrite lookup_insert_ne; [done|]. intros ->. apply Hp0.
    apply list_elem_of_fmap. by exists (pi, p).
Qed.

Lemma present_dom (ps : list (nat * string)) (d : gmap string npfloat)
    (p : string) :
  is_Some (foldl present_step d ps !! p) → p ∈ ps.*2 ∨ is_Some (d !! p).
Proof.
  destruct (decide (p ∈ ps.*2)) as [|Hp]; [by left|].
  rewrite present_untouched by done. by right.
Qed.

(** The row of sample [batch_idx]. *)
Lemma iou_row_ok (label_names : list string) (batch_idx : nat) :
  iou_row (f <$> labels) labels label_names batch_idx
  = Ok (<["batch_idx"%string := of_int (Z.of_nat batch_idx)]>
          (foldl present_step ∅ (enumerate label_names)
           ∪ foldl (λ d p, <[p := sentinel]> d) ∅ label_names)).
Proof. unfold iou_row. by rewrite present_loop. Qed.

Lemma iou_row_lookup (label_names : list string) (batch_idx pi : nat)
    (p : string) (row : gmap string npfloat) :
  NoDup label_names → "batch_idx"%string ∉ label_names →
  iou_row (f <$> labels) labels label_names batch_idx = Ok row →
  label_names !! pi = Some p →
  row !! "batch_idx"%string = Some (of_int (Z.of_nat batch_idx))
  ∧ row !! p = Some (if bool_decide (Z.of_nat pi ∈ labels)
                     then f (Z.of_nat pi) else sentinel).
Proof.
  intros Hnames Hidx Hrow Hp. rewrite iou_row_ok in Hrow.
  injection Hrow as <-. split; [by rewrite lookup_insert_eq|].
  assert (Hin : p ∈ label_names) by by eapply list_elem_of_lookup_2.
  rewrite lookup_insert_ne by (intros <-; done).
  rewrite lookup_union.
  rewrite (present_lookup _ _ pi).
  - rewrite (mean_row_lookup (λ _, sentinel)), decide_True by done.
    rewrite lookup_empty. by destruct (bool_decide _).
  - unfold enumerate. rewrite snd_zip; [done|]. by rewrite length_seq.
  - unfold enumerate. apply list_elem_of_lookup. exists pi.
    rewrite lookup_zip_with, lookup_seq_lt by by eapply lookup_lt_Some.
    simpl. by rewrite Hp.
Qed.

End IouRow.

Lemma getitem_ok {A : Type} (a : ndarray A) (N i : nat) (s : list nat) :
  shape a = N :: s → (i < N)%nat → getitem a i = Ok (subarray a i).
Proof. intros Hs Hi. unfold getitem. rewrite Hs. by rewrite decide_True. Qed.

Lemma subarray_shape {A : Type} (a : ndarray A) (N i : nat) (s : list nat) :
  shape a = N :: s → shape (subarray a i) = s.
Proof. intros Hs. unfold subarray. simpl. by rewrite Hs. Qed.

Section IouTable.

Variables (predicted target : ndarray Z) (label_names : list string).
Variables (N : nat) (s : list nat).
Hypothesis Hpred : shape predicted = N :: s.
Hypothesis Htarget : shape target = N :: s.

(** The samples are scored one after the other, each adding its row. *)
Lemma iou_table_loop (m k : nat) (df : DataFrame) :
  (k + m ≤ N)%nat →
  ∃ df', for_each
           (λ df batch_idx,
              current_inferred ← getitem predicted batch_idx;
              current_gt ← getitem target batch_idx;
              scores ← compute_iou current_inferred current_gt;
              df_update ← iou_row scores.1 scores.2 label_names batch_idx;
              Ok (Pd.append df df_update))
           (seq k m) df = Ok df'
       ∧ length (rows df') = (length (rows df) + m)%nat
       ∧ (∀ i, (i < length (rows df))%nat → rows df' !! i = rows df !! i)
       ∧ ∀ j, (j < m)%nat →
           ∃ row, rows df' !! (length (rows df) + j)%nat = Some row
             ∧ iou_row (iou_of (subarray predicted (k + j))
                               (subarray target (k + j))
                          <$> Np.unique (subarray target (k + j)))
                       (Np.unique (subarray target (k + j)))
                       label_names (k + j) = Ok row.
Proof.
  revert k df. induction m as [|m IH]; intros k df Hk.
  - exists df. cbn [seq for_each]. split_and!; [done | lia | done | lia].
  - cbn [seq for_each].
    rewrite (getitem_ok predicted N k s), (getitem_ok target N k s) by (done || lia).
    unfold mbind, result_bind. cbn [bind].
    rewrite compute_iou_ok
      by by rewrite (subarray_shape _ N _ s), (subarray_shape _ N _ s).
    cbn [bind fst snd].
    rewrite iou_row_ok by apply NoDup_unique. cbn [bind].
    match goal with
    | |- context [Pd.append df ?r] => set (row := r)
    end.
    destruct (IH (S k) (Pd.append df row)) as (df' & Hrun & Hlen & Hold & Hnew);
      [lia|].
    exists df'. unfold mbind, result_bind in Hrun. rewrite Hrun.
    assert (Hrows : rows (Pd.append df row) = rows df ++ [row]) by done.
    rewrite Hrows, length_app in *. cbn [length] in *.
    split_and!; [done | lia | |].
    + intros i Hi. rewrite Hold by lia. by rewrite lookup_app_l.
    + intros [|j] Hj.
      * exists row. rewrite !Nat.add_0_r, Hold by lia.
        rewrite lookup_app_r, Nat.sub_diag by lia. split; [done|].
        rewrite iou_row_ok by apply NoDup_unique. done.
      * destruct (Hnew j) as (r & Hr & Hrow); [lia|].
        exists r. split.
        -- rewrite <- Hr. f_equal. lia.
        -- by replace (k + S j)%nat with (S k + j)%nat by lia.
Qed.

End IouTable.

(** C2 (amended). For label names that are pairwise distinct and differ
    from "batch_idx", [calculate_iou_df] on two stacks of [N] maps of one
    shape returns one row per sample, in sample order; row [i] holds the
    sample index [i] under "batch_idx" and, for each named label, its IoU
    against ground truth [i] when its ID is among the labels of that
    ground truth, and the sentinel -1.0 otherwise. *)
Theorem calculate_iou_df_correct (predicted target : ndarray Z)
    (label_names : list string) (N : nat) (s : list nat) :
  shape predicted = N :: s → shape target = N :: s →
  NoDup label_names → "batch_idx"%string ∉ label_names →
  iou_df_correct predicted target label_names N.
Proof.
  intros Hpred Htarget Hnd Hidx.
  destruct (iou_table_loop predicted target label_names N s Hpred Htarget
              N 0 (df_empty ("batch_idx"%string :: label_names)))
    as (df & Hrun & Hlen & _ & Hrows); [lia|].
  exists df. split_and!.
  - unfold calculate_iou_df, len. rewrite Hpred.
    unfold mbind, result_bind in *. cbn [bind]. exact Hrun.
  - by rewrite Hlen.
  - intros i Hi. destruct (Hrows i Hi) as (row & Hrow & Hiou).
    exists row. cbn [df_empty rows length Nat.add] in Hrow.
    split; [done|].
    assert (Hb : row !! "batch_idx"%string = Some (of_int (Z.of_nat i))).
    { rewrite iou_row_ok in Hiou by apply NoDup_unique.
      injection Hiou as <-. by rewrite lookup_insert_eq. }
    split; [done|]. intros pi p Hp.
    by eapply iou_row_lookup; [apply NoDup_unique|..].
Qed.

Lemma calculate_iou_df_correct_witness :
  iou_df_correct (NdArray [2; 1; 2]%nat [0; 1; 1; 1])
                 (NdArray [2; 1; 2]%nat [0; 1; 0; 0])
                 ["zeros"; "ones"; "twos"]%string 2.
Proof.
  apply (calculate_iou_df_correct _ _ _ 2 [1; 2]%nat); try done.
  - repeat (apply NoDup_cons; split; [by vm_compute; intros H;
      repeat (apply elem_of_cons in H as [H|H]; [done|]);
      apply elem_of_nil in H|]).
    apply NoDup_nil_2.
  - intros H. repeat (apply elem_of_cons in H as [H|H]; [done|]).
    by apply elem_of_nil in H.
Defined.

(** With a name listed twice, the row holds under that name the IoU of the
    last listed ID that is present, whatever the other ID: the claim as
    stated fails. *)
Lemma calculate_iou_df_duplicate_names :
  ¬ iou_df_correct (NdArray [1; 1; 1]%nat [0]) (NdArray [1; 1; 1]%nat [0])
                   ["a"; "a"]%string 1.
Proof.
  intros (df & Hdf & _ & Hrows).
  destruct (Hrows 0%nat) as (row & Hrow & _ & Hcells); [lia|].
  specialize (Hcells 1%nat "a"%string eq_refl).
  vm_compute in Hdf. injection Hdf as <-.
  vm_compute in Hrow. injection Hrow as <-.
  vm_compute in Hcells. discriminate Hcells.
Qed.

(** ** Semantic grouping compiler *)

Lemma list_index_ok (l : list string) (o : string) :
  o ∈ l → ∃ k, list_index l o = Ok k ∧ l !! k = Some o.
Proof.
  intros Ho. unfold list_index.
  destruct (list_find (λ y, y = o) l) as [[k y]|] eqn:Hf.
  - apply list_find_Some in Hf as (Hk & -> & _). by exists k.
  - apply list_find_None in Hf. eapply Forall_forall in Hf; [|done]. done.
Qed.

Lemma list_index_raise (l : list string) (o : string) :
  o ∉ l → list_index l o = Raise ValueError.
Proof.
  intros Ho. unfold list_index.
  destruct (list_find (λ y, y = o) l) as [[k y]|] eqn:Hf; [|done].
  apply list_find_Some in Hf as (Hk & -> & _).
  exfalso. apply Ho. by eapply list_elem_of_lookup_2.
Qed.

Lemma list_index_lookup (l : list string) (o : string) (k : nat) :
  list_index l o = Ok k → l !! k = Some o.
Proof.
  unfold list_index.
  destruct (list_find (λ y, y = o) l) as [[k' y]|] eqn:Hf; [|done].
  intros [= <-]. by apply list_find_Some in Hf as (Hk & -> & _).
Qed.

Section Grouping.

Variable vocabulary : list string.
Variable semantic_remap_dict : gmap string (list string).

(** Old ID [kz] is the ID of one of the names [old_keys]. *)
Let covers (old_keys : list string) (kz : Z) : Prop :=
  ∃ o k, o ∈ old_keys ∧ list_index vocabulary o = Ok k ∧ kz = Z.of_nat k.

(** The dict comprehension [{vocabulary.index(o): i for o in old_keys}]. *)
Let comprehension (i : nat) (old_keys : list string) (d : gmap Z Z)
  : result (gmap Z Z) :=
  for_each (λ (d : gmap Z Z) o,
              k ← list_index vocabulary o;
              Ok (<[Z.of_nat k := Z.of_nat i]> d))
           old_keys d.

Lemma comprehension_raise i old_keys d :
  ¬ Forall (λ o, o ∈ vocabulary) old_keys →
  comprehension i old_keys d = Raise ValueError.
Proof.
  revert d. induction old_keys as [|o old_keys IH]; intros d Hbad.
  { destruct Hbad. constructor. }
  unfold comprehension. cbn [for_each].
  destruct (decide (o ∈ vocabulary)) as [Ho|Ho].
  - destruct (list_index_ok _ _ Ho) as (k & -> & _).
    unfold mbind, result_bind. cbn [bind]. apply IH.
    intros Hall. apply Hbad. by constructor.
  - by rewrite list_index_raise.
Qed.

Lemma comprehension_ok i old_keys d :
  Forall (λ o, o ∈ vocabulary) old_keys →
  ∃ update, comprehension i old_keys d = Ok update
    ∧ (∀ kz, covers old_keys kz → update !! kz = Some (Z.of_nat i))
    ∧ (∀ kz, ¬ covers old_keys kz → update !! kz = d !! kz)
    ∧ (∀ kz, d !! kz = Some (Z.of_nat i) → update !! kz = Some (Z.of_nat i))
    ∧ (∀ kz v, update !! kz = Some v →
         d !! kz = Some v ∨ (covers old_keys kz ∧ v = Z.of_nat i)).
Proof.
  revert d. induction old_keys as [|o old_keys IH]; intros d Hall.
  { exists d. split_and!; try done.
    - intros kz (o & k & Ho & _). by apply elem_of_nil in Ho.
    - intros kz v Hv. by left. }
  apply Forall_cons in Hall as [Ho Hall].
  destruct (list_index_ok _ _ Ho) as (k & Hk & _).
  destruct (IH (<[Z.of_nat k := Z.of_nat i]> d) Hall)
    as (update & Hrun & Hcov & Hmiss & Hkeep & Hdom).
  exists update. split_and!.
  - unfold comprehension in *. cbn [for_each]. rewrite Hk.
    unfold mbind, result_bind. cbn [bind]. exact Hrun.
  - intros kz (o0 & k0 & H0 & H1 & ->).
    apply elem_of_cons in H0 as [->|H0].
    + rewrite Hk in H1. injection H1 as <-.
      apply Hkeep. by rewrite lookup_insert_eq.
    + apply Hcov. by exists o0, k0.
  - intros kz Hn. rewrite Hmiss.
    + apply lookup_insert_ne. intros <-. apply Hn.
      exists o, k. split_and!; [by left | done | done].
    + intros (o0 & k0 & H0 & H1 & H2). apply Hn.
      exists o0, k0. split_and!; [by right | done | done].
  - intros kz Hkz. apply Hkeep.
    destruct (decide (kz = Z.of_nat k)) as [->|Hne].
    + by rewrite lookup_insert_eq.
    + by rewrite lookup_insert_ne.
  - intros kz v Hv. destruct (Hdom kz v Hv) as [Hd|[(o0 & k0 & H0 & H1 & H2) ->]].
    + destruct (decide (kz = Z.of_nat k)) as [->|Hne].
      * rewrite lookup_insert_eq in Hd. injection Hd as <-. right.
        split; [|done]. exists o, k. split_and!; [by left | done | done].
      * rewrite lookup_insert_ne in Hd by done. by left.
    + right. split; [|done]. exists o0, k0.
      split_and!; [by right | done | done].
Qed.

(** The outer loop over the listed categories. *)
Let outer (ps : list (nat * string)) (m0 : gmap Z Z) : result (gmap Z Z) :=
  for_each
    (λ (remap_dict : gmap Z Z) '(i, new_label),
       old_keys ← dict_getitem semantic_remap_dict new_label;
       update ← for_each
                  (λ (d : gmap Z Z) o,
                     k ← list_index vocabulary o;
                     Ok (<[Z.of_nat k := Z.of_nat i]> d))
                  old_keys ∅;
       Ok (update ∪ remap_dict))
    ps m0.

Lemma outer_raise ps m0 :
  (∀ i g, (i, g) ∈ ps → is_Some (semantic_remap_dict !! g)) →
  (∃ i g olds o, (i, g) ∈ ps ∧ semantic_remap_dict !! g = Some olds
                 ∧ o ∈ olds ∧ o ∉ vocabulary) →
  outer ps m0 = Raise ValueError.
Proof.
  revert m0. induction ps as [|[i g] ps IH]; intros m0 Hkeys Hbad.
  { destruct Hbad as (? & ? & ? & ? & H & _). by apply elem_of_nil in H. }
  destruct (Hkeys i g) as [olds Holds]; [by left|].
  unfold outer. cbn [for_each]. unfold dict_getitem at 1. rewrite Holds.
  unfold mbind, result_bind. cbn [bind].
  destruct (decide (Forall (λ o, o ∈ vocabulary) olds)) as [Hall|Hnall].
  - destruct (comprehension_ok i olds ∅ Hall) as (update & Hrun & _).
    unfold comprehension, mbind, result_bind in Hrun. rewrite Hrun.
    cbn [bind]. apply IH.
    + intros i' g' Hin. apply (Hkeys i'). by right.
    + destruct Hbad as (i' & g' & olds' & o & Hin & Hg' & Ho & Hno).
      apply elem_of_cons in Hin as [[= -> ->]|Hin].
      * rewrite Holds in Hg'. injection Hg' as <-.
        rewrite Forall_forall in Hall. by specialize (Hall o Ho).
      * by exists i', g', olds', o.
  - pose proof (comprehension_raise i olds ∅ Hnall) as Hrun.
    unfold comprehension, mbind, result_bind in Hrun. by rewrite Hrun.
Qed.

Lemma outer_ok ps m0 :
  (∀ i g, (i, g) ∈ ps → is_Some (semantic_remap_dict !! g)) →
  (∀ i g olds o, (i, g) ∈ ps → semantic_remap_dict !! g = Some olds →
                 o ∈ olds → o ∈ vocabulary) →
  ∃ m, outer ps m0 = Ok m
    ∧ (∀ kz, (∀ i g olds, (i, g) ∈ ps → semantic_remap_dict !! g = Some olds →
                ¬ covers olds kz) → m !! kz = m0 !! kz)
    ∧ (∀ j i g olds kz,
         ps !! j = Some (i, g) → semantic_remap_dict !! g = Some olds →
         covers olds kz →
         (∀ j' i' g' olds', (j < j')%nat → ps !! j' = Some (i', g') →
            semantic_remap_dict !! g' = Some olds' → ¬ covers olds' kz) →
         m !! kz = Some (Z.of_nat i))
    ∧ (∀ kz v, m !! kz = Some v →
         m0 !! kz = Some v
         ∨ ∃ i g olds, (i, g) ∈ ps ∧ semantic_remap_dict !! g = Some olds
                       ∧ covers olds kz ∧ v = Z.of_nat i).
Proof.
  revert m0. induction ps as [|[i g] ps IH]; intros m0 Hkeys Hgood.
  { exists m0. split_and!;
      [done | done
      | intros j i g olds kz Hj; by rewrite lookup_nil in Hj
      | intros kz v Hv; by left]. }
  destruct (Hkeys i g) as [olds Holds]; [by left|].
  assert (Hall : Forall (λ o, o ∈ vocabulary) olds).
  { apply Forall_forall. intros o Ho. eapply (Hgood i g); [by left|done..]. }
  destruct (comprehension_ok i olds ∅ Hall)
    as (update & Hrun & Hcov & Hmiss & _ & Hdom).
  destruct (IH (update ∪ m0)) as (m & Hm & Hskip & Hlast & Hfrom).
  { intros i' g' Hin. apply (Hkeys i'). by right. }
  { intros i' g' olds' o Hin. apply (Hgood i' g'). by right. }
  exists m. split_and!.
  - unfold outer in *. cbn [for_each]. unfold dict_getitem at 1. rewrite Holds.
    unfold comprehension, mbind, result_bind in *. cbn [bind].
    rewrite Hrun. cbn [bind]. exact Hm.
  - intros kz Hnone. rewrite Hskip.
    + rewrite lookup_union, Hmiss by (apply (Hnone i g); [by left | done]).
      rewrite lookup_empty. by destruct (m0 !! kz).
    + intros i' g' olds' Hin. apply (Hnone i'). by right.
  - intros [|j] i' g' olds' kz Hj Hg' Hc Hlater.
    + cbn in Hj. injection Hj as <- <-. rewrite Holds in Hg'.
      injection Hg' as <-. rewrite Hskip.
      * rewrite lookup_union, Hcov by done. by destruct (m0 !! kz).
      * intros i2 g2 olds2 Hin Hg2.
        apply list_elem_of_lookup in Hin as [j2 Hj2].
        apply (Hlater (S j2) i2 g2); [lia | done | done].
    + apply (Hlast j i' g' olds'); [done..|].
      intros j' i2 g2 olds2 Hlt Hj' Hg2.
      apply (Hlater (S j') i2 g2); [lia | done | done].
  - intros kz v Hv. destruct (Hfrom kz v Hv) as [Hv1|(i2 & g2 & olds2 & Hin & ?)].
    + rewrite lookup_union in Hv1.
      destruct (update !! kz) as [w|] eqn:Hu.
      * assert (w = v) as -> by (destruct (m0 !! kz); by injection Hv1).
        destruct (Hdom kz v Hu) as [Hempty|[Hc ->]].
        { by rewrite lookup_empty in Hempty. }
        right. exists i, g, olds. split_and!; [by left | done..].
      * left. by destruct (m0 !! kz).
    + right. exists i2, g2, olds2. split; [by right | done].
Qed.

End Grouping.

Lemma enumerate_lookup {A : Type} (l : list A) (j i : nat) (x : A) :
  enumerate l !! j = Some (i, x) ↔ i = j ∧ l !! j = Some x.
Proof.
  unfold enumerate. rewrite lookup_zip_with.
  destruct (l !! j) as [y|] eqn:Hy.
  - rewrite lookup_seq_lt by by eapply lookup_lt_Some. simpl.
    split; [by intros [= <- <-] | by intros [<- [= <-]]].
  - destruct (seq 0 (length l) !! j); simpl; split; try done; by intros [_ ?].
Qed.

Lemma elem_of_enumerate {A : Type} (l : list A) (i : nat) (x : A) :
  (i, x) ∈ enumerate l ↔ l !! i = Some x.
Proof.
  rewrite list_elem_of_lookup. split.
  - intros [j Hj]. by apply enumerate_lookup in Hj as [-> ?].
  - intros Hi. exists i. by apply enumerate_lookup.
Qed.

(** C7 (amended). When every listed category has an entry in the grouping
    table, the compiler fails with the lookup error of [list.index] as soon
    as an old name of a listed category is absent from the vocabulary; when
    all those old names are present it returns a map that sends the ID of
    each of them to the position of the last listed category that names
    it, and has no other entry. *)
Theorem semantic_remap_dict2remap_dict_correct
    (semantic_remap_dict : gmap string (list string))
    (new_part_list : list string) :
  (∀ g, g ∈ new_part_list → is_Some (semantic_remap_dict !! g)) →
  ((∃ i g olds o, new_part_list !! i = Some g
                  ∧ semantic_remap_dict !! g = Some olds
                  ∧ o ∈ olds ∧ o ∉ PART_LIST)
   → semantic_remap_dict2remap_dict semantic_remap_dict new_part_list
     = Raise ValueError)
  ∧ ((∀ i g olds o, new_part_list !! i = Some g →
                    semantic_remap_dict !! g = Some olds →
                    o ∈ olds → o ∈ PART_LIST)
     → ∃ m, semantic_remap_dict2remap_dict semantic_remap_dict new_part_list = Ok m
         ∧ (∀ i g olds o k,
              new_part_list !! i = Some g → semantic_remap_dict !! g = Some olds →
              o ∈ olds → list_index PART_LIST o = Ok k →
              (∀ j g' olds', (i < j)%nat → new_part_list !! j = Some g' →
                 semantic_remap_dict !! g' = Some olds' → o ∉ olds') →
              m !! Z.of_nat k = Some (Z.of_nat i))
         ∧ (∀ kz v, m !! kz = Some v →
              ∃ i g olds o k,
                new_part_list !! i = Some g ∧ semantic_remap_dict !! g = Some olds
                ∧ o ∈ olds ∧ list_index PART_LIST o = Ok k
                ∧ kz = Z.of_nat k ∧ v = Z.of_nat i)).
Proof.
  intros Hkeys.
  assert (Hkeys' : ∀ i g, (i, g) ∈ enumerate new_part_list →
            is_Some (semantic_remap_dict !! g)).
  { intros i g Hin. apply Hkeys. apply elem_of_enumerate in Hin.
    by eapply list_elem_of_lookup_2. }
  split.
  - intros (i & g & olds & o & Hi & Hg & Ho & Hno).
    apply (outer_raise PART_LIST semantic_remap_dict _ ∅ Hkeys').
    exists i, g, olds, o. split; [by apply elem_of_enumerate | done].
  - intros Hgood.
    destruct (outer_ok PART_LIST semantic_remap_dict
                (enumerate new_part_list) ∅ Hkeys')
      as (m & Hm & _ & Hlast & Hfrom).
    { intros i g olds o Hin. apply (Hgood i g olds o).
      by apply elem_of_enumerate. }
    exists m. split_and!; [exact Hm | |].
    + intros i g olds o k Hi Hg Ho Hk Hlater.
      apply (Hlast i i g olds); [by apply enumerate_lookup | done | |].
      { by exists o, k. }
      intros j' i' g' olds' Hlt Hj' Hg' (o' & k' & Ho' & Hk' & Heq).
      apply enumerate_lookup in Hj' as [-> Hj'].
      apply (Hlater j' g' olds' Hlt Hj' Hg').
      apply Nat2Z.inj in Heq. subst k'.
      apply list_index_lookup in Hk, Hk'. by simplify_eq.
    + intros kz v Hv. destruct (Hfrom kz v Hv)
        as [Hempty|(i & g & olds & Hin & Hg & (o & k & Ho & Hk & ->) & ->)].
      { by rewrite lookup_empty in Hempty. }
      exists i, g, olds, o, k. apply elem_of_enumerate in Hin. done.
Qed.

Lemma semantic_remap_dict2remap_dict_correct_witness :
  ∃ m, semantic_remap_dict2remap_dict
         {[ "background" := ["background"];
            "hand" := ["right_hand"; "left_hand"] ]}%string
         ["background"; "hand"]%string = Ok m.
Proof.
  destruct (semantic_remap_dict2remap_dict_correct
              {[ "background" := ["background"];
                 "hand" := ["right_hand"; "left_hand"] ]}%string
              ["background"; "hand"]%string) as [_ Hok].
  - intros g Hg.
    repeat (apply elem_of_cons in Hg as [->|Hg]);
      [by vm_compute; eexists.. | by apply elem_of_nil in Hg].
  - destruct Hok as (m & Hm & _).
    + intros i g olds o Hi Hg Ho.
      destruct i as [|[|i]]; [| |done]; injection Hi as <-;
        vm_compute in Hg; injection Hg as <-;
        repeat (apply elem_of_cons in Ho as [->|Ho]);
        try (by apply elem_of_nil in Ho);
        apply list_elem_of_In; vm_compute; tauto.
    + by exists m.
Defined.

(** An unknown old name under a category that is not listed is never looked
    up: the compiler returns, so the claim as stated fails. *)
Lemma semantic_remap_dict2remap_dict_unlisted :
  ¬ grouping_compiles {[ "arm"%string := ["no_such_part"%string] ]} [].
Proof.
  intros [Hfail _].
  destruct Hfail as [e He].
  - exists "arm"%string, ["no_such_part"%string], "no_such_part"%string.
    split_and!.
    + by vm_compute.
    + by left.
    + intros Hin. apply list_elem_of_In in Hin. vm_compute in Hin.
      repeat (destruct Hin as [Hin|Hin]; [discriminate Hin|]). done.
  - vm_compute in He. discriminate He.
Qed.

(** ** Centroid extractor *)

Lemma mask_pixels (v : Z) (l : list Z) (ks : list nat) :
  (filter (λ p : nat * bool, p.2 = true) (zip ks ((λ x, Z.eqb x v) <$> l))).*1
  = (filter (λ p : nat * Z, p.2 = v) (zip ks l)).*1.
Proof.
  revert ks. induction l as [|x l IH]; intros [|k ks]; try done.
  simpl. rewrite !filter_cons. simpl. specialize (IH ks).
  destruct (Z.eqb_spec x v); repeat case_decide; try done;
    simpl; (exact IH || (f_equal; exact IH)).
Qed.

Lemma mask_count (v : Z) (l : list Z) (ks : list nat) :
  length ks = length l →
  count_true ((λ x, Z.eqb x v) <$> l)
  = length (filter (λ p : nat * Z, p.2 = v) (zip ks l)).
Proof.
  revert ks. induction l as [|x l IH]; intros [|k ks] Hl; try done.
  simpl in Hl. specialize (IH ks ltac:(lia)).
  simpl. rewrite filter_cons. unfold count_true in *. simpl.
  destruct (Z.eqb_spec x v); case_decide; try done;
    simpl; (exact IH || (f_equal; exact IH)).
Qed.

(** The centre of mass of the mask of label [v], axis by axis. *)
Lemma center_of_mass_mask (labels : ndarray Z) (v : Z) :
  center_of_mass (eq_scalar labels v)
  = (λ axis,
       true_divide (inject_Z (Z.of_nat (coord_sum labels v axis)))
                   (inject_Z (Z.of_nat (length (label_pixels labels v)))))
      <$> seq 0 (length (shape labels)).
Proof.
  unfold center_of_mass, coord_sum, label_pixels, enumerate, Np.sum.
  cbn [eq_scalar shape data].
  rewrite mask_pixels, length_fmap.
  rewrite (mask_count v (data labels) (seq 0 (length (data labels))))
    by apply length_seq.
  by rewrite length_fmap.
Qed.

Lemma label_pixels_pos (labels : ndarray Z) (v : Z) :
  v ∈ data labels → (0 < length (label_pixels labels v))%nat.
Proof.
  intros Hv. apply list_elem_of_lookup in Hv as [k Hk].
  unfold label_pixels. rewrite length_fmap.
  apply (filter_nonempty _ _ (k, v)); [|done].
  by apply elem_of_enumerate.
Qed.

(** Converting a quotient of counts to an integer takes its floor. *)
Lemma astype_int_divide (m n : nat) :
  (0 < n)%nat →
  astype_int (true_divide (inject_Z (Z.of_nat m)) (inject_Z (Z.of_nat n)))
  = Qfloor (inject_Z (Z.of_nat m) / inject_Z (Z.of_nat n)).
Proof.
  intros Hn. rewrite true_divide_counts by done.
  set (x := (inject_Z (Z.of_nat m) / inject_Z (Z.of_nat n))%Q).
  assert (Hx : (0 <= x)%Q).
  { apply Qle_shift_div_l.
    - rewrite <- (Zlt_Qlt 0). lia.
    - rewrite Qmult_0_l. rewrite <- (Zle_Qle 0). lia. }
  rewrite <- (Qfloor_comp (Qred x) x) by apply Qred_correct.
  apply Qred_le in Hx. change (Qred 0) with 0%Q in Hx.
  unfold astype_int. destruct (Qred x) as [num den].
  unfold Qle in Hx. simpl in Hx. simpl.
  apply Z.quot_div_nonneg; lia.
Qed.

Lemma centroid_loop (labels : ndarray Z) (ml : ndarray bool → ndarray Z)
    (ul : list Z) (cs : list (list Z)) (ls : list Z) :
  foldl
    (λ '(centroids, centroid_labels) '(label_mask, label_id),
       if false then
         let connected_labels := ml label_mask in
         let connected_ids :=
           filter (λ v, v ≠ 0) (Np.unique connected_labels) in
         let connected_masks :=
           (λ cid, eq_scalar connected_labels cid) <$> connected_ids in
         let current_centroids := _calc_centroid <$> connected_masks in
         (centroids ++ current_centroids,
          centroid_labels ++ replicate (length current_centroids) label_id)
       else
         let current_centroids := _calc_centroid label_mask in
         (centroids ++ [current_centroids], centroid_labels ++ [label_id]))
    (cs, ls) (zip ((λ label_id, eq_scalar labels label_id) <$> ul) ul)
  = (cs ++ ((λ v, _calc_centroid (eq_scalar labels v)) <$> ul), ls ++ ul).
Proof.
  revert cs ls. induction ul as [|v ul IH]; intros cs ls.
  - by rewrite !app_nil_r.
  - simpl. rewrite IH. by rewrite <- !app_assoc.
Qed.

(** C5 (amended). Without connected-component analysis
    [calculate_centroids] returns exactly one centroid per distinct
    non-background label of the map, paired with that label; each
    coordinate of the centroid is the mean coordinate (row, then column)
    of the pixels of the label with its fractional part dropped: the
    greatest integer not above the mean. *)
Theorem calculate_centroids_correct (measure_label : ndarray bool → ndarray Z)
    (labels : ndarray Z) (background : Z) :
  let result := calculate_centroids measure_label labels false background in
  NoDup result.2
  ∧ (∀ v, v ∈ result.2 ↔ v ∈ data labels ∧ v ≠ background)
  ∧ length result.1 = length result.2
  ∧ ∀ i v, result.2 !! i = Some v →
      result.1 !! i
      = Some ((λ axis, Qfloor (mean_coord labels v axis))
                <$> seq 0 (length (shape labels)))
      ∧ ∀ axis, (inject_Z (Qfloor (mean_coord labels v axis))
                 <= mean_coord labels v axis
                 < inject_Z (Qfloor (mean_coord labels v axis) + 1))%Q.
Proof.
  unfold calculate_centroids. rewrite (centroid_loop labels measure_label).
  cbn [fst snd app].
  set (ul := filter (λ v, v ≠ background) (Np.unique labels)).
  assert (Hul : ∀ v, v ∈ ul ↔ v ∈ data labels ∧ v ≠ background).
  { intros v. unfold ul. rewrite list_elem_of_filter, elem_of_unique. tauto. }
  split_and!.
  - apply NoDup_filter, NoDup_unique.
  - exact Hul.
  - by rewrite length_fmap.
  - intros i v Hi.
    split; [|intros axis; split; [apply Qfloor_le | apply Qlt_floor]].
    rewrite list_lookup_fmap, Hi. cbn [fmap option_fmap option_map]. f_equal.
    unfold _calc_centroid. rewrite center_of_mass_mask.
    rewrite <- list_fmap_compose. apply list_fmap_ext. intros j axis _.
    cbn [compose]. apply astype_int_divide, label_pixels_pos.
    apply Hul. by eapply list_elem_of_lookup_2.
Qed.

(** Label 1 of the example map has mean row 7/4 and its centroid row is 1,
    which is not a nearest integer: the centroid is not the rounded mean. *)
Lemma calculate_centroids_not_rounded :
  ¬ centroids_rounded no_components example_label_map 0.
Proof.
  unfold centroids_rounded.
  replace (calculate_centroids no_components example_label_map false 0)
    with ([[1; 0]], [1]) by (by vm_compute).
  intros H. specialize (H 0%nat 1 [1; 0] 0%nat 1 eq_refl eq_refl eq_refl).
  vm_compute in H. by apply H.
Qed.

(** ** Label-map resizer *)

Lemma concat_slice {A : Type} (ls : list (list A)) (m i : nat) (l : list A) :
  Forall (λ l, length l = m) ls → ls !! i = Some l →
  take m (drop (i * m) (concat ls)) = l.
Proof.
  intros Hall. revert i. induction Hall as [|l0 ls Hl0 _ IH]; intros i Hi; [done|].
  destruct i as [|i]; simpl in *.
  - injection Hi as ->. by apply take_app_length'.
  - rewrite (drop_app_add' l0) by done. by apply IH.
Qed.

Lemma map_each_ok {A B : Type} (f : A → result B) (xs : list A) (ys : list B) :
  Forall2 (λ x y, f x = Ok y) xs ys → map_each f xs = Ok ys.
Proof.
  induction 1 as [|x y xs ys Hxy _ IH]; [done|].
  cbn [map_each]. by rewrite Hxy, IH.
Qed.

Lemma stack_ok {A : Type} (arrays : list (ndarray A)) (s : list nat) :
  arrays ≠ [] → Forall (λ b, shape b = s) arrays →
  stack arrays = Ok (NdArray (length arrays :: s) (concat (data <$> arrays))).
Proof.
  intros Hne Hall. destruct arrays as [|a arrays]; [done|].
  unfold stack. pose proof (Forall_inv Hall) as Ha. simpl in Ha. subst s.
  by rewrite decide_True.
Qed.

Lemma subarray_stack {A : Type} (arrays : list (ndarray A)) (s : list nat)
    (i : nat) (a : ndarray A) :
  Forall (λ b, wf b ∧ shape b = s) arrays → arrays !! i = Some a →
  subarray (NdArray (length arrays :: s) (concat (data <$> arrays))) i = a.
Proof.
  intros Hall Hi. unfold subarray. cbn [shape data tail].
  rewrite (concat_slice _ _ _ (data a)).
  - rewrite Forall_forall in Hall.
    destruct (Hall a) as [_ Hs]; [by eapply list_elem_of_lookup_2|].
    destruct a. simpl in *. by subst.
  - apply Forall_fmap, Forall_forall. intros b Hb.
    rewrite Forall_forall in Hall. destruct (Hall b Hb) as [Hwf Hs].
    unfold wf in Hwf. simpl. by rewrite Hwf, Hs.
  - by rewrite list_lookup_fmap, Hi.
Qed.

(** A result for every index below [N], collected in a list. *)
Lemma collect_results {B : Type} (P : nat → B → Prop) (N : nat) :
  (∀ i, (i < N)%nat → ∃ r, P i r) →
  ∃ rs, length rs = N ∧ ∀ i r, rs !! i = Some r → P i r.
Proof.
  induction N as [|N IH]; intros Hall.
  - exists []. split; [done|]. intros i r Hi. by rewrite lookup_nil in Hi.
  - destruct IH as (rs & Hlen & Hrs); [intros i Hi; apply Hall; lia|].
    destruct (Hall N) as [r Hr]; [lia|].
    exists (rs ++ [r]). split; [rewrite length_app; simpl; lia|].
    intros i r' Hi. apply lookup_app_Some in Hi as [Hi|[Hge Hi]].
    + by apply Hrs.
    + rewrite Hlen in *. apply list_lookup_singleton_Some in Hi as [Hi <-].
      by replace i with N by lia.
Qed.

Section ResizeBatch.

Variable cv2_resize : ndarray Z → nat * nat → interpolation → result (ndarray Z).
Variables (labels : ndarray Z) (N H W : nat).
Hypothesis Hshape : shape labels = [N; H; W].

(** The pieces [np.split] cuts a non-empty batch into. *)
Lemma split_batch :
  N ≠ 0%nat →
  split labels N
  = Ok ((λ i, NdArray [1; H; W]%nat
                (take (numel [H; W]) (drop (i * numel [H; W]) (data labels))))
          <$> seq 0 N).
Proof.
  intros HN. unfold split. rewrite Hshape.
  rewrite decide_False by done.
  rewrite Nat.Div0.mod_same, decide_True by done.
  rewrite Nat.div_same by done. by rewrite Nat.mul_1_l.
Qed.

(** Squeezing a piece gives back the slice, unless the slice has a unit
    axis of its own. *)
Lemma squeeze_piece (i : nat) :
  H ≠ 1%nat → W ≠ 1%nat →
  squeeze (NdArray [1; H; W]%nat
             (take (numel [H; W]) (drop (i * numel [H; W]) (data labels))))
  = subarray labels i.
Proof.
  intros HH HW. unfold squeeze, subarray. rewrite Hshape. cbn [shape data tail].
  f_equal. rewrite !filter_cons, filter_nil.
  rewrite decide_False by (intros Hn; by apply Hn).
  by rewrite !decide_True.
Qed.

Lemma resize_labels_slice (i : nat) (size : nat * nat) :
  resize_labels cv2_resize (subarray labels i) size
  = cv2_resize (subarray labels i) size INTER_NEAREST.
Proof.
  unfold resize_labels. rewrite (subarray_shape labels N i [H; W]) by done.
  by rewrite decide_True.
Qed.

End ResizeBatch.

(** What the batch case does achieve.  For a non-empty stack of [N] label
    maps whose height and width both differ from 1, and a target size at
    which the 2-D resize succeeds on every slice with an array of one
    common shape, [resize_labels] returns a batch of [N] maps in the same
    order whose [i]-th slice is [resize_labels] of the [i]-th input slice
    (nearest-neighbour interpolation in both cases). *)
Lemma resize_labels_batch
    (cv2_resize : ndarray Z → nat * nat → interpolation → result (ndarray Z))
    (labels : ndarray Z) (size : nat * nat) (N H W : nat) (target : list nat) :
  shape labels = [N; H; W] → N ≠ 0%nat → H ≠ 1%nat → W ≠ 1%nat →
  (∀ i, (i < N)%nat →
     ∃ r, resize_labels cv2_resize (subarray labels i) size = Ok r
        ∧ wf r ∧ shape r = target) →
  resize_batch_correct cv2_resize labels size N target.
Proof.
  intros Hshape HN HH HW Hslices.
  destruct (collect_results _ N Hslices) as (rs & Hlen & Hrs).
  assert (Hall : Forall (λ b, wf b ∧ shape b = target) rs).
  { apply Forall_forall. intros r Hr.
    apply list_elem_of_lookup in Hr as [i Hi]. by destruct (Hrs i r Hi) as (_ & ? & ?). }
  exists (NdArray (N :: target) (concat (data <$> rs))). split_and!.
  - unfold resize_labels. rewrite Hshape.
    rewrite decide_False by done. rewrite decide_True by done.
    change (default 0%nat (head [N; H; W])) with N.
    rewrite (split_batch labels N H W) by done.
    unfold mbind, result_bind. cbn [bind].
    rewrite (map_each_ok _ _ rs).
    + cbn [bind]. rewrite <- Hlen. apply stack_ok.
      * intros ->. simpl in Hlen. lia.
      * eapply Forall_impl; [exact Hall|]. by intros b [_ ?].
    + apply Forall2_same_length_lookup. split.
      { by rewrite length_fmap, length_seq. }
      intros i piece r Hpiece Hr.
      rewrite list_lookup_fmap in Hpiece.
      destruct (seq 0 N !! i) as [j|] eqn:Hj; [|done].
      apply lookup_seq in Hj as [-> _]. injection Hpiece as <-.
      rewrite (squeeze_piece labels N H W) by done.
      destruct (Hrs i r Hr) as (Hres & _).
      by rewrite (resize_labels_slice cv2_resize labels N H W) in Hres.
  - done.
  - intros i Hi.
    destruct (lookup_lt_is_Some_2 rs i) as [r Hr]; [lia|].
    rewrite <- Hlen. rewrite (subarray_stack rs target i r) by done.
    by destruct (Hrs i r Hr) as (? & _).
Qed.

Example resize_labels_batch_example :
  resize_batch_correct cv2_resize_nearest
    (NdArray [2; 2; 2]%nat [0; 0; 1; 1; 0; 1; 1; 1]) (3, 4)%nat 2 [4; 3]%nat.
Proof.
  apply (resize_labels_batch _ _ _ 2 2 2); try done.
  intros i Hi. destruct i as [|[|i]]; [| |lia]; eexists; by vm_compute.
Qed.

(** With a unit height the slice that reaches [cv2.resize] is no longer the
    2-D slice: [np.squeeze] has dropped its first axis as well. *)
Lemma resize_labels_unit_height
    (cv2_resize : ndarray Z → nat * nat → interpolation → result (ndarray Z))
    (size : nat * nat) :
  resize_labels cv2_resize (NdArray [1; 1; 2]%nat [1; 2]) size
  = (r ← cv2_resize (NdArray [2]%nat [1; 2]) size INTER_NEAREST; stack [r])
  ∧ subarray (NdArray [1; 1; 2]%nat [1; 2]) 0 = NdArray [1; 2]%nat [1; 2].
Proof.
  split; [|done]. unfold resize_labels, mbind, result_bind. simpl.
  by destruct (cv2_resize _ _ _).
Qed.

(** C9. The claim fails on the code for an empty batch: a stack of zero
    label maps cannot be split into zero sections, so [resize_labels]
    raises where the claim promises a batch of length zero, whatever the
    resize routine and the target size. *)
Theorem resize_labels_empty_batch_raises
    (cv2_resize : ndarray Z → nat * nat → interpolation → result (ndarray Z))
    (size : nat * nat) :
  len (NdArray [0; 2; 2]%nat ([] : list Z)) = Ok 0%nat
  ∧ resize_labels cv2_resize (NdArray [0; 2; 2]%nat []) size
    = Raise ZeroDivisionError
  ∧ ¬ resize_batch_correct cv2_resize (NdArray [0; 2; 2]%nat []) size 0
        [2; 2]%nat.
Proof.
  split_and!; [done | done |].
  intros (out & Hout & _). discriminate Hout.
Qed.

(** ** The docstring examples *)

(** Every row of the example table reads
    [batch_idx, 0.0, 0.5, 0.0, -1.0], as the docstring prints. *)
Example docstring_iou_df :
  match calculate_iou_df docstring_predicted docstring_target
          docstring_label_names with
  | Ok df =>
      columns df = ["batch_idx"; "zeros"; "ones"; "twos"; "threes"]%string
      ∧ values df
        = (λ i, [of_int (Z.of_nat i); FNum 0; FNum (1 # 2); FNum 0; FNum (-1)])
            <$> seq 0 10
  | Raise _ => False
  end.
Proof. vm_compute. by split. Qed.

(** The means of the example table: 4.5, 0.0, 0.5, 0.0, NaN and the
    overall score 1/6, printed as 0.166667. *)
Example docstring_overall_iou :
  match calculate_iou_df docstring_predicted docstring_target
          docstring_label_names with
  | Ok df =>
      let df_mean := calculate_overall_iou_from_df df default_exclude_columns in
      columns df_mean
      = ["batch_idx"; "zeros"; "ones"; "twos"; "threes"; "overall"]%string
      ∧ values df_mean
        = [[FNum (9 # 2); FNum 0; FNum (1 # 2); FNum 0; FNaN; FNum (1 # 6)]]
  | Raise _ => False
  end.
Proof. vm_compute. by split. Qed.

(** In a 2-D map the two coordinates of a pixel are its row and column. *)
Lemma unravel_index_2d (H W k : nat) :
  (k < H * W)%nat → unravel_index [H; W] k = [(k / W)%nat; (k mod W)%nat].
Proof.
  intros Hk. cbn [unravel_index numel foldr].
  rewrite Nat.mul_1_r, Nat.div_1_r. f_equal.
  apply Nat.mod_small, Nat.Div0.div_lt_upper_bound. lia.
Qed.
(** * Further properties *)

(** ** Part filter *)

Lemma scatter_selected (v : Z) (xs cur : list Z) :
  length cur = length xs →
  scatter ((λ x, Z.eqb x v) <$> xs)
          (snd <$> filter (λ p : bool * Z, p.1 = true)
                     (zip ((λ x, Z.eqb x v) <$> xs) xs))
          cur
  = zip_with (λ x c, if Z.eqb x v then x else c) xs cur.
Proof.
  revert cur. induction xs as [|x xs IH]; intros [|c cur] Hlen; try done.
  simpl in Hlen. simpl. rewrite filter_cons. simpl.
  destruct (Z.eqb_spec x v) as [->|Hne]; case_decide; try done; simpl.
  - f_equal. apply IH. lia.
  - f_equal. apply IH. lia.
Qed.

Lemma selected_count (v : Z) (xs : list Z) :
  length (snd <$> filter (λ p : bool * Z, p.1 = true)
                    (zip ((λ x, Z.eqb x v) <$> xs) xs))
  = count_true ((λ x, Z.eqb x v) <$> xs).
Proof.
  rewrite length_fmap. unfold count_true.
  induction xs as [|x xs IH]; [done|].
  simpl. rewrite filter_cons. simpl.
  destruct (Z.eqb_spec x v); case_decide; try done; simpl;
    (exact IH || (f_equal; exact IH)).
Qed.

(** One pass of the loop of [filter_parts]. *)
Lemma filter_parts_step (part_map new_part_map : ndarray Z) (i : Z) :
  shape new_part_map = shape part_map →
  length (data new_part_map) = length (data part_map) →
  (selected ← getitem_bool part_map (eq_scalar part_map i);
   setitem_bool new_part_map (eq_scalar part_map i) selected)
  = Ok (NdArray (shape part_map)
          (zip_with (λ x c, if Z.eqb x i then x else c)
                    (data part_map) (data new_part_map))).
Proof.
  intros Hs Hl. unfold getitem_bool, setitem_bool, mbind, result_bind.
  cbn [eq_scalar shape data]. rewrite decide_True by done. cbn [bind].
  rewrite decide_True by done.
  rewrite decide_True by apply selected_count.
  by rewrite scatter_selected, Hs.
Qed.

Lemma filter_parts_loop (part_map new_part_map : ndarray Z) (included : list Z) :
  shape new_part_map = shape part_map →
  length (data new_part_map) = length (data part_map) →
  for_each
    (λ new_part_map i,
       let mask := eq_scalar part_map i in
       selected ← getitem_bool part_map mask;
       setitem_bool new_part_map mask selected)
    included new_part_map
  = Ok (NdArray (shape part_map)
          (zip_with (λ x c, if bool_decide (x ∈ included) then x else c)
                    (data part_map) (data new_part_map))).
Proof.
  revert new_part_map. induction included as [|i included IH];
    intros npm Hs Hl.
  - cbn [for_each]. destruct npm as [s d]. simpl in *. subst s. f_equal. f_equal.
    revert d Hl. generalize (data part_map). intros xs.
    induction xs as [|x xs IHx]; intros [|c d] Hl; try done.
    simpl. f_equal. apply IHx. simpl in Hl. lia.
  - cbn [for_each]. cbv zeta. rewrite filter_parts_step by done. cbn [bind].
    rewrite IH; cbn [shape data]; [|done|rewrite length_zip_with; lia].
    f_equal. f_equal. clear.
    generalize (data part_map) (data npm). intros xs.
    induction xs as [|x xs IHx]; intros [|c d]; try done.
    simpl. f_equal; [|apply IHx].
    destruct (Z.eqb_spec x i) as [->|Hne].
    + rewrite (bool_decide_true (i ∈ i :: included)) by by left.
      by destruct (bool_decide _).
    + destruct (decide (x ∈ included)) as [Hin|Hnin].
      * rewrite !bool_decide_true; [done | by right | done].
      * rewrite !bool_decide_false; [done | | done].
        by intros [?|?]%elem_of_cons.
Qed.

(** The loop of [filter_parts] as a pixelwise test. *)
Lemma filter_parts_data (part_map : ndarray Z) (included_parts : list Z) :
  filter_parts part_map included_parts
  = Ok (NdArray (shape part_map)
          ((λ x, if bool_decide (x ∈ included_parts) then x else 0)
             <$> data part_map)).
Proof.
  unfold filter_parts.
  rewrite filter_parts_loop; [|done|by cbn; rewrite length_replicate].
  f_equal. f_equal. cbn [zeros_like data].
  generalize (data part_map). intros xs.
  induction xs as [|x xs IH]; [done|]. simpl. f_equal. exact IH.
Qed.

(** X1. [filter_parts] never raises; it keeps the shape, leaves a pixel
    whose label is among the included parts as it is and sets every other
    pixel to 0. *)
Theorem filter_parts_correct (part_map : ndarray Z) (included_parts : list Z) :
  filter_parts part_map included_parts
  = Ok (NdArray (shape part_map)
          ((λ x, if bool_decide (x ∈ included_parts) then x else 0)
             <$> data part_map)).
Proof. apply filter_parts_data. Qed.

(** X2. Filtering twice keeps the parts included both times: the second
    filter never raises either, the order of the two filters is
    irrelevant, and filtering again with the same parts changes nothing. *)
Theorem filter_parts_compose (part_map : ndarray Z) (A B : list Z) :
  (a ← filter_parts part_map A; filter_parts a B)
  = filter_parts part_map (filter (λ x, x ∈ B) A)
  ∧ (a ← filter_parts part_map A; filter_parts a B)
    = (b ← filter_parts part_map B; filter_parts b A)
  ∧ (a ← filter_parts part_map A; filter_parts a A)
    = filter_parts part_map A.
Proof.
  assert (Htwice : ∀ A B : list Z,
            (a ← filter_parts part_map A; filter_parts a B)
            = Ok (NdArray (shape part_map)
                    ((λ x, if bool_decide (x ∈ A ∧ x ∈ B) then x else 0)
                       <$> data part_map))).
  { intros A' B'. rewrite (filter_parts_data part_map A').
    unfold mbind, result_bind. cbn [bind].
    rewrite filter_parts_data. cbn [shape data]. f_equal. f_equal.
    rewrite <- list_fmap_compose. apply list_fmap_ext. intros _ x _. cbn.
    destruct (decide (x ∈ A')) as [HA|HA], (decide (x ∈ B')) as [HB|HB].
    - rewrite (bool_decide_true (x ∈ A')), (bool_decide_true (x ∈ B')) by done.
      by rewrite bool_decide_true.
    - rewrite (bool_decide_true (x ∈ A')), (bool_decide_false (x ∈ B')) by done.
      rewrite bool_decide_false; [done | tauto].
    - rewrite (bool_decide_false (x ∈ A')) by done.
      rewrite (bool_decide_false (_ ∧ _)) by tauto. by destruct (bool_decide _).
    - rewrite (bool_decide_false (x ∈ A')) by done.
      rewrite (bool_decide_false (_ ∧ _)) by tauto. by destruct (bool_decide _). }
  assert (Hext : ∀ P Q : Z → Prop, ∀ (HP : ∀ x, Decision (P x)) (HQ : ∀ x, Decision (Q x)),
            (∀ x, P x ↔ Q x) →
            (λ x, if bool_decide (P x) then x else 0) <$> data part_map
            = (λ x, if bool_decide (Q x) then x else 0) <$> data part_map).
  { intros P Q HP HQ HPQ. apply list_fmap_ext. intros _ x _. cbn.
    by rewrite (bool_decide_ext (P x) (Q x)). }
  split_and!.
  - rewrite Htwice, filter_parts_data. f_equal. f_equal.
    apply Hext. intros x. rewrite list_elem_of_filter. tauto.
  - rewrite !Htwice. f_equal. f_equal. apply Hext. tauto.
  - rewrite Htwice, filter_parts_data. f_equal. f_equal.
    apply Hext. tauto.
Qed.


(** The loop of [remap_parts] as a pixelwise lookup. *)
Lemma remap_parts_data (part_map : ndarray Z) (remap_dict : gmap Z Z) :
  remap_parts part_map remap_dict
  = NdArray (shape part_map)
            ((λ x, default 0 (remap_dict !! x)) <$> data part_map).
Proof. unfold remap_parts. by apply remap_parts_items_lookup. Qed.




(** X5. When the values of both tables fit the dtype of the map, two
    remappings in a row are one remapping by the composed lookup; a pixel
    the first table leaves out is background when the second table is
    applied, and follows what that table does with label 0. *)
Theorem remap_parts_compose (part_map : Dtype.int_array) (d1 d2 : gmap Z Z) :
  (∀ x v, d1 !! x = Some v →
          Dtype.representable (Dtype.dtype_of part_map) v) →
  (∀ x v, d2 !! x = Some v →
          Dtype.representable (Dtype.dtype_of part_map) v) →
  Dtype.remap_parts (Dtype.remap_parts part_map d1) d2
  = Dtype.IntArray (Dtype.dtype_of part_map)
      (NdArray (shape (Dtype.values part_map))
         ((λ x, match d1 !! x with
                | Some y => default 0 (d2 !! y)
                | None => default 0 (d2 !! 0)
                end) <$> data (Dtype.values part_map))).
Proof.
  intros H1 H2.
  rewrite (typed_remap_parts_fit part_map d1) by (intros x v _; apply H1).
  rewrite typed_remap_parts_fit
    by (cbn [Dtype.dtype_of]; intros x v _; apply H2).
  cbn [Dtype.dtype_of Dtype.values shape data]. f_equal. f_equal.
  rewrite <- list_fmap_compose.
  apply list_fmap_ext. intros _ x _. cbn. by destruct (d1 !! x).
Qed.

Lemma remap_parts_compose_witness :
  Dtype.remap_parts
    (Dtype.remap_parts
       (Dtype.IntArray Dtype.uint8 (NdArray [2; 2]%nat [1; 2; 3; 1]))
       {[1 := 7; 2 := 9]})
    {[7 := 1; 0 := 5]}
  = Dtype.IntArray Dtype.uint8 (NdArray [2; 2]%nat [1; 0; 5; 1]).
Proof.
  rewrite (remap_parts_compose
             (Dtype.IntArray Dtype.uint8 (NdArray [2; 2]%nat [1; 2; 3; 1]))
             {[1 := 7; 2 := 9]} {[7 := 1; 0 := 5]}).
  - by vm_compute.
  - intros x v Hv.
    apply lookup_insert_Some in Hv as [[_ <-]|[_ Hv]]; [by vm_compute|].
    apply lookup_singleton_Some in Hv as [_ <-]. by vm_compute.
  - intros x v Hv.
    apply lookup_insert_Some in Hv as [[_ <-]|[_ Hv]]; [by vm_compute|].
    apply lookup_singleton_Some in Hv as [_ <-]. by vm_compute.
Defined.

(** X6. When the values the table gives to the labels of the map fit the
    dtype of the map, [remap_parts] invents no label: every pixel of the
    output is background or a value the table gives to a label of the
    input. *)
Theorem remap_parts_labels (part_map : Dtype.int_array)
    (remap_dict : gmap Z Z) (y : Z) :
  (∀ x v, x ∈ data (Dtype.values part_map) → remap_dict !! x = Some v →
          Dtype.representable (Dtype.dtype_of part_map) v) →
  y ∈ data (Dtype.values (Dtype.remap_parts part_map remap_dict)) →
  y = 0 ∨ ∃ x, x ∈ data (Dtype.values part_map) ∧ remap_dict !! x = Some y.
Proof.
  intros Hfit. rewrite (typed_remap_parts_fit _ _ Hfit).
  cbn [Dtype.values data]. intros Hy.
  apply list_elem_of_fmap in Hy as (x & -> & Hx).
  destruct (remap_dict !! x) as [v|] eqn:Hv; [right | by left].
  by exists x.
Qed.

Lemma remap_parts_labels_witness :
  7 = 0 ∨ ∃ x, x ∈ [1; 2; 3; 1] ∧ ({[1 := 7; 2 := 9]} : gmap Z Z) !! x = Some 7.
Proof.
  apply (remap_parts_labels
           (Dtype.IntArray Dtype.uint8 (NdArray [2; 2]%nat [1; 2; 3; 1]))
           {[1 := 7; 2 := 9]} 7).
  - intros x v _ Hv.
    apply lookup_insert_Some in Hv as [[_ <-]|[_ Hv]]; [by vm_compute|].
    apply lookup_singleton_Some in Hv as [_ <-]. by vm_compute.
  - vm_compute. by left.
Defined.

(** X7. Remapping a stack of maps remaps every map of the stack: slicing
    and remapping commute. *)
Theorem remap_parts_subarray (part_maps : ndarray Z) (remap_dict : gmap Z Z)
    (i : nat) :
  subarray (remap_parts part_maps remap_dict) i
  = remap_parts (subarray part_maps i) remap_dict.
Proof.
  rewrite !remap_parts_data. unfold subarray. cbn [shape data].
  by rewrite fmap_take, fmap_drop.
Qed.

(** ** IoU scorer, further *)

Lemma filter_length_le {A : Type} (P Q : A → Prop)
    `{∀ x, Decision (P x)} `{∀ x, Decision (Q x)} (l : list A) :
  (∀ x, P x → Q x) →
  (length (filter P l) ≤ length (filter Q l))%nat
  ∧ (length (filter P l) = length (filter Q l) ↔ ∀ x, x ∈ l → Q x → P x).
Proof.
  intros HPQ. induction l as [|x l [IHle IHeq]].
  { split; [done|]. split; [|done]. intros _ x Hx. by apply elem_of_nil in Hx. }
  rewrite !filter_cons.
  destruct (decide (P x)) as [HP|HP], (decide (Q x)) as [HQ|HQ]; simpl.
  - split; [lia|]. split.
    + intros Heq y Hy HQy. apply elem_of_cons in Hy as [->|Hy]; [done|].
      apply IHeq; [lia | done..].
    + intros Hall. f_equal. apply IHeq. intros y Hy. apply Hall. by right.
  - by destruct HQ; apply HPQ.
  - split; [lia|]. split.
    + intros Heq. lia.
    + intros Hall. destruct HP. apply Hall; [by left | done].
  - split; [lia|]. split.
    + intros Heq y Hy HQy. apply elem_of_cons in Hy as [->|Hy]; [done|].
      by apply IHeq.
    + intros Hall. apply IHeq. intros y Hy. apply Hall. by right.
Qed.

Lemma filter_length_zero {A : Type} (P : A → Prop) `{∀ x, Decision (P x)}
    (l : list A) :
  length (filter P l) = 0%nat ↔ ∀ x, x ∈ l → ¬ P x.
Proof.
  induction l as [|x l IH].
  { split; [|done]. intros _ x Hx. by apply elem_of_nil in Hx. }
  rewrite filter_cons. destruct (decide (P x)) as [HP|HP]; simpl.
  - split; [done|]. intros Hall. destruct (Hall x); [by left | done].
  - rewrite IH. split.
    + intros Hall y Hy. apply elem_of_cons in Hy as [->|Hy]; [done | by apply Hall].
    + intros Hall y Hy. apply Hall. by right.
Qed.

Lemma elem_of_zip_lookup {A B : Type} (l : list A) (k : list B) (x : A) (y : B) :
  (x, y) ∈ zip l k ↔ ∃ i, l !! i = Some x ∧ k !! i = Some y.
Proof.
  rewrite elem_of_lookup_zip_with. split.
  - intros (i & x' & y' & [= -> ->] & ? & ?). by exists i.
  - intros (i & ? & ?). by exists i, x, y.
Qed.

(** The quotient of two counts is 1 when they are equal and 0 when the
    numerator is. *)
Lemma true_divide_one (m n : nat) :
  (0 < n)%nat →
  true_divide (inject_Z (Z.of_nat m)) (inject_Z (Z.of_nat n)) = FNum 1
  ↔ m = n.
Proof.
  intros Hn. split.
  - rewrite true_divide_counts by done. intros [= Heq].
    change 1%Q with (Qred 1) in Heq. apply Qred_eq_iff in Heq.
    assert (Hnz : ¬ (inject_Z (Z.of_nat n) == 0)%Q).
    { change 0%Q with (inject_Z 0). rewrite inject_Z_injective. lia. }
    pose proof (Qmult_div_r (inject_Z (Z.of_nat m)) _ Hnz) as Hm.
    rewrite Heq, Qmult_1_r in Hm.
    apply (proj1 (inject_Z_injective _ _)) in Hm. lia.
  - intros ->. by apply true_divide_self.
Qed.

Lemma true_divide_nought (m n : nat) :
  (0 < n)%nat →
  true_divide (inject_Z (Z.of_nat m)) (inject_Z (Z.of_nat n)) = FNum 0
  ↔ m = 0%nat.
Proof.
  intros Hn. split.
  - rewrite true_divide_counts by done. intros [= Heq].
    change 0%Q with (Qred 0) in Heq. apply Qred_eq_iff in Heq.
    assert (Hnz : ¬ (inject_Z (Z.of_nat n) == 0)%Q).
    { change 0%Q with (inject_Z 0). rewrite inject_Z_injective. lia. }
    pose proof (Qmult_div_r (inject_Z (Z.of_nat m)) _ Hnz) as Hm.
    rewrite Heq, Qmult_0_r in Hm.
    change 0%Q with (inject_Z 0) in Hm.
    apply (proj1 (inject_Z_injective _ _)) in Hm. lia.
  - intros ->. rewrite true_divide_counts by done. f_equal.
Qed.

Lemma true_divide_bounds (m n : nat) :
  (m ≤ n)%nat → (0 < n)%nat →
  ∃ q, true_divide (inject_Z (Z.of_nat m)) (inject_Z (Z.of_nat n)) = FNum q
     ∧ (0 <= q <= 1)%Q.
Proof.
  intros Hmn Hn. rewrite true_divide_counts by done. eexists. split; [done|].
  assert (Hpos : (0 < inject_Z (Z.of_nat n))%Q).
  { rewrite <- (Zlt_Qlt 0). lia. }
  rewrite Qred_correct. split.
  - apply Qle_shift_div_l; [done|]. rewrite Qmult_0_l, <- (Zle_Qle 0). lia.
  - apply Qle_shift_div_r; [done|]. rewrite Qmult_1_l, <- Zle_Qle. lia.
Qed.

(** X8. On same-shaped maps every IoU value [compute_iou] returns is a
    number between 0 and 1. *)
Theorem compute_iou_bounds (pred label : ndarray Z) :
  same_shape pred label →
  ∃ ious labels, compute_iou pred label = Ok (ious, labels)
    ∧ ∀ x, x ∈ ious → ∃ q, x = FNum q ∧ (0 <= q <= 1)%Q.
Proof.
  intros Hsame. pose proof (same_shape_length _ _ Hsame) as Hlen.
  destruct Hsame as (_ & _ & Hshape).
  exists (iou_of pred label <$> Np.unique label), (Np.unique label).
  split; [by apply compute_iou_ok|].
  intros x Hx. apply list_elem_of_fmap in Hx as (v & -> & Hv).
  apply true_divide_bounds.
  - apply intersection_le_union.
  - apply union_count_pos; [done|]. by apply elem_of_unique.
Qed.

Lemma compute_iou_bounds_witness :
  ∃ ious labels,
    compute_iou (NdArray [2; 2]%nat [1; 1; 0; 2]) (NdArray [2; 2]%nat [1; 0; 0; 2])
    = Ok (ious, labels)
    ∧ ∀ x, x ∈ ious → ∃ q, x = FNum q ∧ (0 <= q <= 1)%Q.
Proof.
  apply compute_iou_bounds. by vm_compute.
Defined.

(** X9. On same-shaped maps the IoU of a label of the ground truth is 1.0
    exactly when the prediction carries the label at the same pixels as the
    ground truth, and 0.0 exactly when no pixel carries it in both. *)
Theorem compute_iou_extremes (pred label : ndarray Z) :
  same_shape pred label →
  ∃ ious, compute_iou pred label = Ok (ious, Np.unique label)
    ∧ ∀ i v, Np.unique label !! i = Some v →
        (ious !! i = Some (FNum 1)
         ↔ ∀ k p l, data pred !! k = Some p → data label !! k = Some l →
             (p = v ↔ l = v))
        ∧ (ious !! i = Some (FNum 0)
           ↔ ∀ k p l, data pred !! k = Some p → data label !! k = Some l →
               ¬ (p = v ∧ l = v)).
Proof.
  intros Hsame. pose proof (same_shape_length _ _ Hsame) as Hlen.
  destruct Hsame as (_ & _ & Hshape).
  exists (iou_of pred label <$> Np.unique label).
  split; [by apply compute_iou_ok|].
  intros i v Hi. rewrite list_lookup_fmap, Hi. cbn.
  assert (Hpos : (0 < union_count pred label v)%nat).
  { apply union_count_pos; [done|]. apply elem_of_unique.
    by eapply list_elem_of_lookup_2. }
  assert (Himp : ∀ p : Z * Z, p.1 = v ∧ p.2 = v → p.1 = v ∨ p.2 = v)
    by (intros ? [? ?]; by left).
  split.
  - split.
    + intros [= Hone]. apply true_divide_one in Hone; [|done].
      unfold intersection_count, union_count in Hone.
      intros k p l Hp Hl.
      pose proof (proj1 (proj2 (filter_length_le _ _ _ Himp)) Hone) as Hall.
      specialize (Hall (p, l)). cbn in Hall.
      assert ((p, l) ∈ zip (data pred) (data label))
        by (apply elem_of_zip_lookup; by exists k).
      tauto.
    + intros Hagree. f_equal. apply true_divide_one; [done|].
      unfold intersection_count, union_count.
      apply (proj2 (proj2 (filter_length_le _ _ _ Himp))).
      intros [p l] Hin. apply elem_of_zip_lookup in Hin as (k & Hp & Hl).
      cbn. specialize (Hagree k p l Hp Hl). tauto.
  - split.
    + intros [= Hzero]. apply true_divide_nought in Hzero; [|done].
      pose proof (proj1 (filter_length_zero _ _) Hzero) as Hall.
      intros k p l Hp Hl. apply (Hall (p, l)).
      apply elem_of_zip_lookup. by exists k.
    + intros Hdisj. f_equal. apply true_divide_nought; [done|].
      unfold intersection_count.
      apply (proj2 (filter_length_zero _ _)). intros [p l] Hin.
      apply elem_of_zip_lookup in Hin as (k & Hp & Hl). by apply (Hdisj k).
Qed.

Lemma compute_iou_extremes_witness :
  ∃ ious,
    compute_iou (NdArray [2; 2]%nat [1; 1; 0; 2]) (NdArray [2; 2]%nat [1; 0; 0; 2])
    = Ok (ious, Np.unique (NdArray [2; 2]%nat [1; 0; 0; 2])).
Proof.
  destruct (compute_iou_extremes
              (NdArray [2; 2]%nat [1; 1; 0; 2]) (NdArray [2; 2]%nat [1; 0; 0; 2]))
    as (ious & H & _).
  - by vm_compute.
  - by exists ious.
Defined.

Lemma counts_swap (a b : ndarray Z) (v : Z) :
  intersection_count a b v = intersection_count b a v
  ∧ union_count a b v = union_count b a v.
Proof.
  unfold intersection_count, union_count.
  generalize (data a) (data b). intros xs.
  induction xs as [|x xs IH]; intros [|y ys]; try done.
  destruct (IH ys) as [IHi IHu]. simpl. rewrite !filter_cons. cbn [fst snd].
  split; repeat case_decide; simpl; try tauto;
    (exact IHi || exact IHu || (f_equal; (exact IHi || exact IHu))).
Qed.

(** X10. IoU is symmetric: for a label present in both maps, scoring the
    prediction against the ground truth and the ground truth against the
    prediction report the same value for it. *)
Theorem compute_iou_symmetric (pred label : ndarray Z) :
  same_shape pred label →
  ∃ ious ious', compute_iou pred label = Ok (ious, Np.unique label)
    ∧ compute_iou label pred = Ok (ious', Np.unique pred)
    ∧ ∀ i j v, Np.unique label !! i = Some v → Np.unique pred !! j = Some v →
        ious !! i = ious' !! j.
Proof.
  intros (_ & _ & Hshape).
  exists (iou_of pred label <$> Np.unique label),
         (iou_of label pred <$> Np.unique pred).
  split_and!; [by apply compute_iou_ok.. |].
  intros i j v Hi Hj. rewrite !list_lookup_fmap, Hi, Hj. cbn. f_equal.
  unfold iou_of. destruct (counts_swap pred label v) as [-> ->]. done.
Qed.

Lemma compute_iou_symmetric_witness :
  ∃ ious ious',
    compute_iou (NdArray [2; 2]%nat [1; 1; 0; 2]) (NdArray [2; 2]%nat [1; 0; 0; 2])
    = Ok (ious, Np.unique (NdArray [2; 2]%nat [1; 0; 0; 2]))
    ∧ compute_iou (NdArray [2; 2]%nat [1; 0; 0; 2]) (NdArray [2; 2]%nat [1; 1; 0; 2])
      = Ok (ious', Np.unique (NdArray [2; 2]%nat [1; 1; 0; 2])).
Proof.
  destruct (compute_iou_symmetric
              (NdArray [2; 2]%nat [1; 1; 0; 2]) (NdArray [2; 2]%nat [1; 0; 0; 2]))
    as (ious & ious' & H & H' & _).
  - by vm_compute.
  - by exists ious, ious'.
Defined.

(** X11. The labels [compute_iou] returns are the distinct values of the
    ground truth in strictly increasing order, with one IoU per label;
    empty maps give two empty arrays. *)
Theorem compute_iou_labels (pred label : ndarray Z) :
  shape pred = shape label →
  ∃ ious labels, compute_iou pred label = Ok (ious, labels)
    ∧ length ious = length labels
    ∧ (∀ v, v ∈ labels ↔ v ∈ data label)
    ∧ (∀ i j vi vj, labels !! i = Some vi → labels !! j = Some vj →
         (i < j)%nat → vi < vj)
    ∧ (data label = [] → ious = [] ∧ labels = []).
Proof.
  intros Hshape.
  exists (iou_of pred label <$> Np.unique label), (Np.unique label).
  split_and!.
  - by apply compute_iou_ok.
  - by rewrite length_fmap.
  - apply elem_of_unique.
  - intros i j vi vj Hi Hj Hij.
    assert (Hsorted : StronglySorted Z.le (Np.unique label)).
    { unfold Np.unique. apply StronglySorted_merge_sort; apply _. }
    pose proof (NoDup_unique label) as Hnd.
    assert (vi ≠ vj).
    { intros ->. pose proof (NoDup_lookup _ _ _ _ Hnd Hi Hj). lia. }
    assert (vi <= vj); [|lia].
    revert i j Hi Hj Hij. induction Hsorted as [|x l _ IH Hall];
      intros i j Hi Hj Hij; [done|].
    destruct i as [|i], j as [|j]; try lia; cbn in Hi, Hj.
    + injection Hi as ->. rewrite Forall_forall in Hall. apply Hall.
      by eapply list_elem_of_lookup_2.
    + apply NoDup_cons in Hnd as [_ Hnd]. apply (IH Hnd i j); [done..|lia].
  - intros Hempty. unfold Np.unique. rewrite Hempty. done.
Qed.

Lemma compute_iou_labels_witness :
  ∃ ious labels,
    compute_iou (NdArray [2; 2]%nat [1; 1; 0; 2]) (NdArray [2; 2]%nat [1; 0; 0; 2])
    = Ok (ious, labels) ∧ length ious = length labels.
Proof.
  destruct (compute_iou_labels
              (NdArray [2; 2]%nat [1; 1; 0; 2]) (NdArray [2; 2]%nat [1; 0; 0; 2]))
    as (ious & labels & H & H' & _).
  - done.
  - by exists ious, labels.
Defined.

(** ** Batch aggregator, further *)

Lemma for_each_app {A S : Type} (body : S → A → result S) (xs ys : list A)
    (acc : S) :
  for_each body (xs ++ ys) acc
  = Py.bind (for_each body xs acc) (for_each body ys).
Proof.
  revert acc. induction xs as [|x xs IH]; intros acc; [done|].
  cbn [app for_each]. destruct (body acc x); [apply IH | done].
Qed.

Lemma filter_none {A : Type} (P : A → Prop) `{∀ x, Decision (P x)} (l : list A) :
  (∀ x, x ∈ l → ¬ P x) → filter P l = [].
Proof.
  induction l as [|x l IH]; intros Hall; [done|].
  rewrite filter_cons, decide_False by (apply Hall; by left).
  apply IH. intros y Hy. apply Hall. by right.
Qed.

Lemma subarray_length {A : Type} (a : ndarray A) (N i : nat) (s : list nat) :
  wf a → shape a = N :: s → (i < N)%nat →
  length (data (subarray a i)) = numel s.
Proof.
  unfold wf, subarray. intros Hwf Hs Hi. rewrite Hs in *. cbn [tail data].
  cbn [numel foldr] in Hwf. fold (numel s) in Hwf.
  rewrite length_take, length_drop, Hwf. nia.
Qed.

(** Where the cells of a row come from. *)
Lemma row_values (f : Z → npfloat) (labels : list Z) (ps : list (nat * string))
    (d : gmap string npfloat) (p : string) (x : npfloat) :
  foldl (λ (d : gmap string npfloat) (e : nat * string),
           if bool_decide (Z.of_nat e.1 ∈ labels)
           then <[e.2 := f (Z.of_nat e.1)]> d else d) d ps !! p = Some x →
  d !! p = Some x ∨ ∃ pi, Z.of_nat pi ∈ labels ∧ x = f (Z.of_nat pi).
Proof.
  revert d. induction ps as [|[pi0 p0] ps IH]; intros d Hx; [by left|].
  cbn [foldl fst snd] in Hx. apply IH in Hx as [Hx|Hx]; [|by right].
  destruct (bool_decide _) eqn:Hpi; [|by left].
  apply bool_decide_eq_true in Hpi.
  destruct (decide (p = p0)) as [->|Hne].
  - rewrite lookup_insert_eq in Hx. injection Hx as <-. right. by exists pi0.
  - rewrite lookup_insert_ne in Hx by done. by left.
Qed.

Lemma iou_row_cells (f : Z → npfloat) (labels : list Z)
    (label_names : list string) (batch_idx : nat) (row : gmap string npfloat) :
  NoDup labels →
  iou_row (f <$> labels) labels label_names batch_idx = Ok row →
  (∀ c, is_Some (row !! c) ↔ c = "batch_idx"%string ∨ c ∈ label_names)
  ∧ row !! "batch_idx"%string = Some (of_int (Z.of_nat batch_idx))
  ∧ ∀ c x, c ≠ "batch_idx"%string → row !! c = Some x →
      x = sentinel ∨ ∃ pi, Z.of_nat pi ∈ labels ∧ x = f (Z.of_nat pi).
Proof.
  intros Hnd Hrow. rewrite iou_row_ok in Hrow by done. injection Hrow as <-.
  assert (Hbase : ∀ c,
            foldl (λ (d : gmap string npfloat) p, <[p := sentinel]> d) ∅
                  label_names !! c
            = if decide (c ∈ label_names) then Some sentinel else None).
  { intros c. rewrite (mean_row_lookup (λ _, sentinel)).
    by rewrite lookup_empty. }
  split_and!.
  - intros c. destruct (decide (c = "batch_idx"%string)) as [->|Hne].
    { rewrite lookup_insert_eq. split; [by left | by eexists]. }
    rewrite lookup_insert_ne by done. rewrite lookup_union, Hbase. split.
    + intros [x Hx]. right.
      destruct (decide (c ∈ label_names)) as [|Hnin]; [done|].
      destruct (foldl _ _ _ !! c) as [y|] eqn:Hy; [|done].
      destruct (present_dom f labels (enumerate label_names) ∅ c) as [Hin|Hin].
      * rewrite Hy. by eexists.
      * unfold enumerate in Hin. rewrite snd_zip in Hin; [done|].
        by rewrite length_seq.
      * rewrite lookup_empty in Hin. by destruct Hin.
    + intros [?|Hin]; [done|]. rewrite decide_True by done.
      destruct (foldl _ _ _ !! c); by eexists.
  - by rewrite lookup_insert_eq.
  - intros c x Hne Hx. rewrite lookup_insert_ne in Hx by done.
    rewrite lookup_union, Hbase in Hx.
    destruct (foldl _ _ _ !! c) as [y|] eqn:Hy.
    + assert (y = x) as -> by (destruct (decide _); by injection Hx).
      apply row_values in Hy as [Hy|Hy]; [|by right].
      by rewrite lookup_empty in Hy.
    + destruct (decide _); [|done]. injection Hx as <-. by left.
Qed.

Section IouTableGeneral.

Variables (predicted target : ndarray Z) (label_names : list string).
Variables (N M : nat) (s : list nat).
Hypothesis Hpred : shape predicted = N :: s.
Hypothesis Htarget : shape target = M :: s.

(** The loop of [calculate_iou_df] over samples that both stacks have. *)
Lemma iou_df_loop (m k : nat) (df : DataFrame) :
  (k + m ≤ N)%nat → (k + m ≤ M)%nat →
  columns df = "batch_idx"%string :: label_names →
  ∃ new_rows,
    for_each
      (λ df batch_idx,
         current_inferred ← getitem predicted batch_idx;
         current_gt ← getitem target batch_idx;
         scores ← compute_iou current_inferred current_gt;
         df_update ← iou_row scores.1 scores.2 label_names batch_idx;
         Ok (Pd.append df df_update))
      (seq k m) df
    = Ok {| columns := "batch_idx"%string :: label_names;
            rows := rows df ++ new_rows |}
    ∧ Forall2 (λ i row,
                 iou_row (iou_of (subarray predicted i) (subarray target i)
                            <$> Np.unique (subarray target i))
                         (Np.unique (subarray target i)) label_names i
                 = Ok row)
              (seq k m) new_rows.
Proof.
  revert k df. induction m as [|m IH]; intros k df HkN HkM Hcols.
  - exists []. split; [|constructor]. cbn [seq for_each]. rewrite app_nil_r.
    destruct df. cbn in *. by subst.
  - cbn [seq for_each].
    rewrite (getitem_ok predicted N k s), (getitem_ok target M k s) by (done || lia).
    unfold mbind, result_bind. cbn [bind].
    rewrite compute_iou_ok
      by by rewrite (subarray_shape _ N _ s), (subarray_shape _ M _ s).
    cbn [bind fst snd].
    destruct (iou_row (iou_of (subarray predicted k) (subarray target k)
                         <$> Np.unique (subarray target k))
                      (Np.unique (subarray target k)) label_names k)
      as [row|e] eqn:Hrow.
    2: { by rewrite iou_row_ok in Hrow by apply NoDup_unique. }
    cbn [bind].
    destruct (iou_row_cells _ _ _ _ _ (NoDup_unique _) Hrow) as (Hdom & _ & _).
    assert (Happ : Pd.append df row
                   = {| columns := "batch_idx"%string :: label_names;
                        rows := rows df ++ [row] |}).
    { unfold Pd.append. rewrite Hcols. f_equal.
      rewrite filter_none; [by rewrite app_nil_r|].
      intros c Hc Hnot. apply Hnot.
      apply list_elem_of_fmap in Hc as ([c' x] & -> & Hc).
      apply elem_of_map_to_list in Hc. cbn.
      destruct (proj1 (Hdom c')) as [->|?]; [by eexists | by left | by right]. }
    rewrite Happ.
    destruct (IH (S k) {| columns := "batch_idx"%string :: label_names;
                          rows := rows df ++ [row] |})
      as (new_rows & Hrun & Hall); [lia | lia | done |].
    exists (row :: new_rows). split.
    + unfold mbind, result_bind in Hrun. rewrite Hrun. cbn [rows].
      by rewrite <- app_assoc.
    + by constructor.
Qed.

End IouTableGeneral.

(** X12. When the stack of ground truths has fewer samples than the stack
    of predictions, [calculate_iou_df] raises [IndexError] (at the first
    sample the ground truth lacks) and returns no table. *)
Theorem calculate_iou_df_short_target (predicted target : ndarray Z)
    (label_names : list string) (N M : nat) (s : list nat) :
  shape predicted = N :: s → shape target = M :: s → (M < N)%nat →
  calculate_iou_df predicted target label_names = Raise IndexError.
Proof.
  intros Hpred Htarget HMN. unfold calculate_iou_df, len. rewrite Hpred.
  unfold mbind, result_bind. cbn [bind].
  replace N with (M + S (N - M - 1))%nat at 1 by lia.
  rewrite seq_app, Nat.add_0_l, for_each_app.
  destruct (iou_df_loop predicted target label_names N M s Hpred Htarget
              M 0 (df_empty ("batch_idx"%string :: label_names)))
    as (new_rows & Hrun & _); [lia | lia | done |].
  unfold mbind, result_bind in Hrun. rewrite Hrun. cbn [bind seq for_each].
  rewrite (getitem_ok predicted N M s) by (done || lia). cbn [bind].
  unfold getitem. rewrite Htarget. rewrite decide_False by lia. done.
Qed.

Lemma calculate_iou_df_short_target_witness :
  calculate_iou_df (NdArray [2; 1; 2]%nat [0; 1; 1; 1])
                   (NdArray [1; 1; 2]%nat [0; 1]) ["zeros"; "ones"]%string
  = Raise IndexError.
Proof.
  apply (calculate_iou_df_short_target _ _ _ 2 1 [1; 2]%nat); [done | done | lia].
Defined.

(** X13. On well-formed stacks of one slice shape, with at least as many
    ground truths as predictions, and for label names that are pairwise
    distinct and differ from "batch_idx", [calculate_iou_df] returns a table with
    the columns "batch_idx" and the label names, one row per prediction
    (further ground truths are ignored), in which every cell under a
    column is a finite number and every cell of a label column is the
    sentinel -1 or lies between 0 and 1: the table meets what the
    overall-score reducer needs for a finite score. *)
Theorem calculate_iou_df_table (predicted target : ndarray Z)
    (label_names : list string) (N M : nat) (s : list nat) :
  wf predicted → wf target →
  shape predicted = N :: s → shape target = M :: s → (N ≤ M)%nat →
  NoDup label_names → "batch_idx"%string ∉ label_names →
  ∃ df, calculate_iou_df predicted target label_names = Ok df
    ∧ columns df = "batch_idx"%string :: label_names
    ∧ length (rows df) = N
    ∧ numeric df
    ∧ ∀ row c x, row ∈ rows df → c ∈ label_names → c ≠ "batch_idx"%string →
        row !! c = Some x →
        x = sentinel ∨ ∃ q, x = FNum q ∧ (0 <= q <= 1)%Q.
Proof.
  intros Hwfp Hwft Hpred Htarget HNM _ _.
  destruct (iou_df_loop predicted target label_names N M s Hpred Htarget
              N 0 (df_empty ("batch_idx"%string :: label_names)))
    as (new_rows & Hrun & Hall); [lia | lia | done |].
  cbn [df_empty rows app] in Hrun.
  assert (Hcells : ∀ row, row ∈ new_rows →
            (∀ c, is_Some (row !! c) ↔ c = "batch_idx"%string ∨ c ∈ label_names)
            ∧ (∃ i, row !! "batch_idx"%string = Some (of_int (Z.of_nat i)))
            ∧ ∀ c x, c ≠ "batch_idx"%string → row !! c = Some x →
                x = sentinel ∨ ∃ q, x = FNum q ∧ (0 <= q <= 1)%Q).
  { intros row Hrow. apply list_elem_of_lookup in Hrow as [j Hj].
    destruct (Forall2_lookup_r _ _ _ _ _ Hall Hj) as (i & Hi & Hiou).
    apply lookup_seq in Hi as [-> Hlt]. change (0 + j)%nat with j in *.
    destruct (iou_row_cells _ _ _ _ _ (NoDup_unique _) Hiou)
      as (Hdom & Hidx & Hval).
    split_and!; [done | by eexists |].
    intros c x Hne Hx. destruct (Hval c x Hne Hx) as [->|(pi & Hpi & ->)];
      [by left | right].
    apply true_divide_bounds; [apply intersection_le_union|].
    apply union_count_pos; [|by apply elem_of_unique].
    by rewrite (subarray_length predicted N j s),
               (subarray_length target M j s) by (done || lia). }
  eexists. split; [|split_and!].
  - unfold calculate_iou_df, len. rewrite Hpred.
    unfold mbind, result_bind in *. cbn [bind]. exact Hrun.
  - done.
  - cbn [rows]. apply Forall2_length in Hall. by rewrite length_seq in Hall.
  - intros row c Hrow Hc. cbn [rows columns] in *.
    destruct (Hcells row Hrow) as (Hdom & [i Hi] & Hval).
    destruct (decide (c = "batch_idx"%string)) as [->|Hne]; [by eexists|].
    destruct (proj2 (Hdom c)) as [x Hx].
    { apply elem_of_cons in Hc as [?|?]; [by left | by right]. }
    destruct (Hval c x Hne Hx) as [->|(q & -> & _)]; by eexists.
  - intros row c x Hrow Hc Hne Hx. cbn [rows] in Hrow.
    destruct (Hcells row Hrow) as (_ & _ & Hval). by apply (Hval c).
Qed.

Lemma calculate_iou_df_table_witness :
  ∃ df, calculate_iou_df (NdArray [1; 1; 2]%nat [0; 1])
                         (NdArray [2; 1; 2]%nat [0; 1; 1; 1])
                         ["zeros"; "ones"; "twos"]%string = Ok df
    ∧ length (rows df) = 1%nat.
Proof.
  destruct (calculate_iou_df_table (NdArray [1; 1; 2]%nat [0; 1])
              (NdArray [2; 1; 2]%nat [0; 1; 1; 1])
              ["zeros"; "ones"; "twos"]%string 1 2 [1; 2]%nat)
    as (df & Hdf & _ & Hlen & _); [done | done | done | done | lia | | |].
  - repeat (apply NoDup_cons; split; [intros H;
      repeat (apply elem_of_cons in H as [H|H]; [done|]);
      by apply elem_of_nil in H|]).
    apply NoDup_nil_2.
  - intros H. repeat (apply elem_of_cons in H as [H|H]; [done|]).
    by apply elem_of_nil in H.
  - by exists df.
Defined.

(** ** Overall-score reducer, further *)

(** The reducer's row: the column means and, under "overall", the mean of
    the means of the columns that are not excluded. *)
Lemma overall_row (df : DataFrame) (exclude_columns : list string) :
  ∃ row, rows (calculate_overall_iou_from_df df exclude_columns) = [row]
    ∧ columns (calculate_overall_iou_from_df df exclude_columns)
      = (if decide ("overall"%string ∈ columns df) then columns df
         else columns df ++ ["overall"%string])
    ∧ cell row "overall"
      = nanmean ((λ c, column_mean df c)
                   <$> filter (λ c, c ∉ exclude_columns) (columns df)).
Proof.
  set (kept := filter (λ c, c ∉ exclude_columns) (columns df)).
  set (mrow := foldl (λ (row : gmap string npfloat) c,
                        <[c := column_mean df c]> row) ∅ (columns df)).
  exists (<["overall"%string := nanmean ((λ c, cell mrow c) <$> kept)]> mrow).
  split_and!; [done | done |].
  unfold cell at 1. rewrite lookup_insert_eq.
  change (nanmean ((λ c, cell mrow c) <$> kept)
          = nanmean ((λ c, column_mean df c) <$> kept)).
  f_equal. apply list_fmap_ext. intros i c Hi. unfold cell, mrow.
  rewrite (mean_row_lookup (column_mean df)), decide_True; [done|].
  apply list_elem_of_lookup_2 in Hi. by apply list_elem_of_filter in Hi as [_ ?].
Qed.

Lemma sum_bounds (qs : list Q) :
  Forall (λ q, (0 <= q <= 1)%Q) qs →
  (0 <= foldr Qplus 0 qs <= inject_Z (Z.of_nat (length qs)))%Q.
Proof.
  induction 1 as [|q qs [Hq0 Hq1] _ [IH0 IH1]]; [done|].
  cbn [foldr length]. rewrite Nat2Z.inj_succ, <- Z.add_1_l, inject_Z_plus.
  split.
  - exact (Qplus_le_compat 0 q 0 _ Hq0 IH0).
  - by apply Qplus_le_compat.
Qed.

Lemma mean_of_bounds (qs : list Q) :
  Forall (λ q, (0 <= q <= 1)%Q) qs →
  mean_of qs = FNaN ∨ ∃ m, mean_of qs = FNum m ∧ (0 <= m <= 1)%Q.
Proof.
  intros Hall. destruct qs as [|q qs]; [by left | right].
  eexists. split; [done|]. rewrite Qred_correct.
  destruct (sum_bounds _ Hall) as [H0 H1].
  assert (Hpos : (0 < inject_Z (Z.of_nat (length (q :: qs))))%Q).
  { rewrite <- (Zlt_Qlt 0). cbn [length]. lia. }
  split.
  - apply Qle_shift_div_l; [done|]. by rewrite Qmult_0_l.
  - apply Qle_shift_div_r; [done|]. by rewrite Qmult_1_l.
Qed.

Lemma numbers_Forall (P : Q → Prop) (cells : list npfloat) :
  (∀ q, FNum q ∈ cells → P q) → Forall P (numbers cells).
Proof.
  intros Hall. apply Forall_forall. intros q Hq.
  apply list_elem_of_omap in Hq as (x & Hx & Hq).
  destruct x; try done. injection Hq as ->. by apply Hall.
Qed.

(** X15. When every cell of the columns that are not excluded is an IoU
    value between 0 and 1 or the sentinel -1, the overall score is NaN or
    a number between 0 and 1. *)
Theorem overall_iou_bounds (df : DataFrame) (exclude_columns : list string) :
  (∀ row c, row ∈ rows df → c ∈ columns df → c ∉ exclude_columns →
     ∃ q, row !! c = Some (FNum q) ∧ (q == -1 ∨ 0 <= q <= 1)%Q) →
  ∃ row, rows (calculate_overall_iou_from_df df exclude_columns) = [row]
    ∧ (cell row "overall" = FNaN
       ∨ ∃ q, cell row "overall" = FNum q ∧ (0 <= q <= 1)%Q).
Proof.
  intros Hcells.
  destruct (overall_row df exclude_columns) as (row & Hrows & _ & Hoverall).
  exists row. split; [done|]. rewrite Hoverall.
  set (kept := filter (λ c, c ∉ exclude_columns) (columns df)).
  assert (Hcol : ∀ c, c ∈ kept →
            column_mean df c = FNaN
            ∨ ∃ m, column_mean df c = FNum m ∧ (0 <= m <= 1)%Q).
  { intros c Hc. apply list_elem_of_filter in Hc as [Hex Hc].
    rewrite column_mean_non_sentinel.
    assert (Hshape : ∀ x, x ∈ non_sentinel (column df c) →
              ∃ q, x = FNum q ∧ (0 <= q <= 1)%Q).
    { intros x Hx. apply list_elem_of_filter in Hx as [Hne Hx].
      apply list_elem_of_fmap in Hx as (r & -> & Hr).
      destruct (Hcells r c Hr Hc Hex) as (q & Hq & Hrange).
      unfold cell in *. rewrite Hq in *. cbn in *. exists q. split; [done|].
      destruct Hrange as [Hs|?]; [|done].
      apply Qeq_bool_iff in Hs. by rewrite Hs in Hne. }
    rewrite nanmean_numbers.
    - apply mean_of_bounds, numbers_Forall. intros q Hq.
      destruct (Hshape _ Hq) as (q' & [= <-] & ?). done.
    - apply Forall_forall. intros x Hx.
      destruct (Hshape x Hx) as (q & -> & _). by left. }
  rewrite nanmean_numbers.
  - apply mean_of_bounds, numbers_Forall. intros q Hq.
    apply list_elem_of_fmap in Hq as (c & Hq & Hc).
    destruct (Hcol c Hc) as [Hn|(m & Hm & ?)]; rewrite <- Hq in *; [done|].
    by injection Hm as <-.
  - apply Forall_forall. intros x Hx.
    apply list_elem_of_fmap in Hx as (c & -> & Hc).
    destruct (Hcol c Hc) as [->|(m & -> & _)]; [by right | by left].
Qed.

Lemma overall_iou_bounds_witness :
  ∃ row, rows (calculate_overall_iou_from_df example_iou_table
                 default_exclude_columns) = [row]
    ∧ (cell row "overall" = FNaN
       ∨ ∃ q, cell row "overall" = FNum q ∧ (0 <= q <= 1)%Q).
Proof.
  apply overall_iou_bounds. intros r c Hr Hc Hex.
  cbn [example_iou_table rows columns] in Hr, Hc.
  repeat (apply elem_of_cons in Hc as [->|Hc]);
    try (by apply elem_of_nil in Hc).
  - destruct Hex. vm_compute. apply elem_of_cons; right.
    apply elem_of_cons; by left.
  - repeat (apply elem_of_cons in Hr as [->|Hr]);
      try (by apply elem_of_nil in Hr).
    + exists (1 # 2)%Q. split; [by vm_compute|]. right. by vm_compute.
    + exists (-1)%Q. split; [by vm_compute|]. by left.
  - repeat (apply elem_of_cons in Hr as [->|Hr]);
      try (by apply elem_of_nil in Hr);
      (exists (-1)%Q; split; [by vm_compute | by left]).
Defined.

(** X16. When no column that is not excluded holds anything but sentinels
    and NaN (in particular for a table without rows, or with every column
    excluded), the overall score is NaN: no number is made up. *)
Theorem overall_iou_undefined (df : DataFrame) (exclude_columns : list string) :
  (∀ row c, row ∈ rows df → c ∈ columns df → c ∉ exclude_columns →
     cell row c = sentinel ∨ cell row c = FNaN) →
  ∃ row, rows (calculate_overall_iou_from_df df exclude_columns) = [row]
    ∧ cell row "overall" = FNaN.
Proof.
  intros Hcells.
  destruct (overall_row df exclude_columns) as (row & Hrows & _ & Hoverall).
  exists row. split; [done|]. rewrite Hoverall.
  assert (Hnan : ∀ l : list npfloat, Forall (λ x, x = FNaN) l → nanmean l = FNaN).
  { intros l Hl. unfold nanmean. rewrite filter_none; [done|].
    intros x Hx. rewrite Forall_forall in Hl. by rewrite (Hl x Hx). }
  apply Hnan, Forall_fmap, Forall_forall. intros c Hc. cbn.
  apply list_elem_of_filter in Hc as [Hex Hc].
  rewrite column_mean_non_sentinel. unfold nanmean.
  rewrite filter_none; [done|]. intros x Hx.
  apply list_elem_of_filter in Hx as [Hne Hx].
  apply list_elem_of_fmap in Hx as (r & -> & Hr).
  destruct (Hcells r c Hr Hc Hex) as [Hs|Hs]; rewrite Hs in *; done.
Qed.

Lemma overall_iou_undefined_witness :
  ∃ row, rows (calculate_overall_iou_from_df
                 {| columns := ["batch_idx"; "ones"; "twos"]%string;
                    rows := [ {[ "batch_idx"%string := FNum 0;
                                 "ones"%string := sentinel;
                                 "twos"%string := FNaN ]};
                              {[ "batch_idx"%string := FNum 1;
                                 "ones"%string := sentinel;
                                 "twos"%string := sentinel ]} ] |}
                 default_exclude_columns) = [row]
    ∧ cell row "overall" = FNaN.
Proof.
  apply overall_iou_undefined. intros r c Hr Hc Hex.
  assert (Hcol : c = "ones"%string ∨ c = "twos"%string).
  { cbn [columns] in Hc.
    repeat (apply elem_of_cons in Hc as [->|Hc]); try tauto.
    - exfalso. apply Hex. right. by left.
    - by apply elem_of_nil in Hc. }
  cbn [rows] in Hr.
  repeat (apply elem_of_cons in Hr as [->|Hr]);
    try (by apply elem_of_nil in Hr);
    destruct Hcol as [-> | ->]; vm_compute; tauto.
Defined.

(** ** Centroid extractor, further *)

(** The centroids one label contributes, with and without
    connected-component analysis. *)
Lemma centroid_loop_general (labels : ndarray Z) (ml : ndarray bool → ndarray Z)
    (cca : bool) (ul : list Z) (cs : list (list Z)) (ls : list Z) :
  foldl
    (λ '(centroids, centroid_labels) '(label_mask, label_id),
       if cca then
         let connected_labels := ml label_mask in
         let connected_ids :=
           filter (λ v, v ≠ 0) (Np.unique connected_labels) in
         let connected_masks :=
           (λ cid, eq_scalar connected_labels cid) <$> connected_ids in
         let current_centroids := _calc_centroid <$> connected_masks in
         (centroids ++ current_centroids,
          centroid_labels ++ replicate (length current_centroids) label_id)
       else
         let current_centroids := _calc_centroid label_mask in
         (centroids ++ [current_centroids], centroid_labels ++ [label_id]))
    (cs, ls) (zip ((λ label_id, eq_scalar labels label_id) <$> ul) ul)
  = (cs ++ (v ← ul;
            if cca then
              (λ cid, _calc_centroid (eq_scalar (ml (eq_scalar labels v)) cid))
                <$> filter (λ c, c ≠ 0) (Np.unique (ml (eq_scalar labels v)))
            else [_calc_centroid (eq_scalar labels v)]),
     ls ++ (v ← ul;
            replicate
              (if cca
               then length (filter (λ c, c ≠ 0)
                              (Np.unique (ml (eq_scalar labels v))))
               else 1%nat) v)).
Proof.
  destruct cca; revert cs ls; induction ul as [|v ul IH]; intros cs ls;
    try by rewrite !app_nil_r.
  - simpl. rewrite IH. simpl.
    rewrite <- !app_assoc, !length_fmap, <- list_fmap_compose. reflexivity.
  - simpl. rewrite IH. by rewrite <- !app_assoc.
Qed.

Lemma filter_eq_replicate (v w : Z) (n : nat) :
  length (filter (λ u, u = v) (replicate n w))
  = if bool_decide (w = v) then n else 0%nat.
Proof.
  induction n as [|n IH]; [by destruct (bool_decide _)|].
  cbn [replicate]. rewrite filter_cons.
  destruct (decide (w = v)) as [->|Hne].
  - rewrite bool_decide_true in * by done. cbn. by rewrite IH.
  - rewrite bool_decide_false in * by done. exact IH.
Qed.

Lemma count_replicated (n : Z → nat) (ul : list Z) (v : Z) :
  NoDup ul →
  length (filter (λ u, u = v) (w ← ul; replicate (n w) w))
  = if bool_decide (v ∈ ul) then n v else 0%nat.
Proof.
  induction 1 as [|w ul Hw _ IH].
  { rewrite bool_decide_false; [done | by apply not_elem_of_nil]. }
  cbn [mbind list_bind]. rewrite filter_app, length_app.
  rewrite filter_eq_replicate.
  change (list_bind _ _ ?f ul) with (ul ≫= f). rewrite IH.
  destruct (decide (w = v)) as [->|Hne].
  - rewrite (bool_decide_true (v = v)) by done.
    rewrite (bool_decide_false (v ∈ ul)) by done.
    rewrite bool_decide_true by by left. lia.
  - rewrite (bool_decide_false (w = v)) by done.
    apply (f_equal (λ b : bool, if b then n v else 0%nat)).
    apply bool_decide_ext. rewrite elem_of_cons.
    split; [tauto | intros [Heq|?]; [congruence | done]].
Qed.

(** X17. Whatever the mode and the labelling routine, the two lists
    [calculate_centroids] returns have the same length and every listed
    label is a non-background label of the map; with connected-component
    analysis each non-background label of the map is listed once per
    non-zero component ID of its mask, and no other label is listed. *)
Theorem calculate_centroids_parallel (measure_label : ndarray bool → ndarray Z)
    (labels : ndarray Z) (cca : bool) (background : Z) :
  let result := calculate_centroids measure_label labels cca background in
  length result.1 = length result.2
  ∧ (∀ v, v ∈ result.2 → v ∈ data labels ∧ v ≠ background)
  ∧ ∀ v, length (filter (λ u, u = v)
                   (calculate_centroids measure_label labels true background).2)
         = if bool_decide (v ∈ data labels ∧ v ≠ background)
           then length (filter (λ c, c ≠ 0)
                          (Np.unique (measure_label (eq_scalar labels v))))
           else 0%nat.
Proof.
  unfold calculate_centroids.
  rewrite (centroid_loop_general labels measure_label cca).
  rewrite (centroid_loop_general labels measure_label true).
  cbn [fst snd app].
  set (ul := filter (λ v, v ≠ background) (Np.unique labels)).
  split_and!.
  - induction ul as [|v ul IH]; [done|]. cbn [mbind list_bind].
    rewrite !length_app. f_equal; [|exact IH].
    destruct cca; [by rewrite length_fmap, length_replicate | done].
  - intros v Hv. apply list_elem_of_bind in Hv as (w & Hv & Hw).
    apply elem_of_replicate in Hv as [-> _].
    apply list_elem_of_filter in Hw as [? Hw]. by apply elem_of_unique in Hw.
  - intros v.
    rewrite (count_replicated
               (λ w, length (filter (λ c, c ≠ 0)
                               (Np.unique (measure_label (eq_scalar labels w)))))
               ul v).
    + apply (f_equal (λ b : bool, if b then _ else 0%nat)).
      apply bool_decide_ext. subst ul.
      rewrite list_elem_of_filter, elem_of_unique. tauto.
    + subst ul. apply NoDup_filter, NoDup_unique.
Qed.

Lemma sum_list_bound (l : list nat) (b : nat) :
  Forall (λ x, x ≤ b)%nat l → (sum_list l ≤ length l * b)%nat.
Proof. induction 1 as [|x l Hx _ IH]; simpl; lia. Qed.

Lemma numel_pos (s : list nat) (d : nat) :
  (0 < numel s)%nat → d ∈ s → (0 < d)%nat.
Proof.
  induction s as [|e s IH]; intros Hpos Hd; [by apply elem_of_nil in Hd|].
  cbn [numel foldr] in Hpos. fold (numel s) in Hpos.
  apply elem_of_cons in Hd as [->|Hd]; [nia|]. apply IH; [nia | done].
Qed.

Lemma unravel_index_lt (s : list nat) (k axis d : nat) :
  s !! axis = Some d → (0 < d)%nat →
  (default 0%nat (unravel_index s k !! axis) < d)%nat.
Proof.
  revert axis. induction s as [|e s IH]; intros axis Hd Hpos; [done|].
  destruct axis as [|axis]; cbn in *.
  - injection Hd as ->. apply Nat.mod_upper_bound. lia.
  - by apply IH.
Qed.

(** X19. Without connected-component analysis every centroid of a
    well-formed map has one coordinate per axis of the map, and each
    coordinate is a valid index along its axis. *)
Theorem calculate_centroids_in_bounds (measure_label : ndarray bool → ndarray Z)
    (labels : ndarray Z) (background : Z) (c : list Z) :
  wf labels →
  c ∈ (calculate_centroids measure_label labels false background).1 →
  length c = length (shape labels)
  ∧ ∀ axis z d, c !! axis = Some z → shape labels !! axis = Some d →
      0 <= z < Z.of_nat d.
Proof.
  intros Hwf. unfold calculate_centroids.
  rewrite (centroid_loop labels measure_label). cbn [fst app].
  intros Hc. apply list_elem_of_fmap in Hc as (v & -> & Hv).
  apply list_elem_of_filter in Hv as [_ Hv]. apply elem_of_unique in Hv.
  unfold _calc_centroid. rewrite center_of_mass_mask.
  rewrite <- list_fmap_compose. split.
  { by rewrite length_fmap, length_seq. }
  intros axis z d Hz Hd.
  rewrite list_lookup_fmap in Hz.
  destruct (seq 0 (length (shape labels)) !! axis) as [a|] eqn:Ha; [|done].
  apply lookup_seq in Ha as [-> _]. cbn in Hz. injection Hz as <-.
  pose proof (label_pixels_pos labels v Hv) as Hn.
  rewrite astype_int_divide by done. rewrite <- Zdiv_Qdiv, <- Nat2Z.inj_div.
  split; [lia|]. apply Nat2Z.inj_lt.
  assert (Hdpos : (0 < d)%nat).
  { apply (numel_pos (shape labels)); [|by eapply list_elem_of_lookup_2].
    unfold wf in Hwf. rewrite <- Hwf.
    apply list_elem_of_lookup in Hv as [k Hk]. by eapply Nat.le_lt_trans;
      [apply Nat.le_0_l | eapply lookup_lt_Some]. }
  assert (Hsum : (coord_sum labels v axis
                  ≤ length (label_pixels labels v) * (d - 1))%nat).
  { unfold coord_sum.
    etrans; [apply (sum_list_bound _ (d - 1))|by rewrite length_fmap].
    apply Forall_fmap, Forall_forall. intros k _. cbn.
    pose proof (unravel_index_lt (shape labels) k axis d Hd Hdpos). lia. }
  apply Nat.Div0.div_lt_upper_bound. nia.
Qed.

Lemma calculate_centroids_in_bounds_witness :
  length [1; 0] = length (shape example_label_map)
  ∧ ∀ axis z d, [1; 0] !! axis = Some z →
      shape example_label_map !! axis = Some d → 0 <= z < Z.of_nat d.
Proof.
  apply (calculate_centroids_in_bounds no_components example_label_map 0).
  - by vm_compute.
  - vm_compute. by left.
Defined.

Lemma length_bind_ge {A B : Type} (f : A → list B) (l : list A) :
  (∀ x, x ∈ l → (1 ≤ length (f x))%nat) → (length l ≤ length (l ≫= f))%nat.
Proof.
  induction l as [|x l IH]; intros Hall; [done|].
  cbn [mbind list_bind]. rewrite length_app. cbn [length].
  pose proof (Hall x ltac:(by left)).
  assert (length l ≤ length (l ≫= f))%nat
    by (apply IH; intros y Hy; apply Hall; by right).
  lia.
Qed.

(** X18. If the labelling routine finds at least one component in the mask
    of every non-background label of the map, connected-component analysis
    returns at least as many centroids as the plain mode, which returns
    one per non-background label. *)
Theorem calculate_centroids_cca_count (measure_label : ndarray bool → ndarray Z)
    (labels : ndarray Z) (background : Z) :
  (∀ v, v ∈ data labels → v ≠ background →
        ∃ c, c ≠ 0 ∧ c ∈ data (measure_label (eq_scalar labels v))) →
  (length (calculate_centroids measure_label labels false background).1
   ≤ length (calculate_centroids measure_label labels true background).1)%nat.
Proof.
  intros Hml. unfold calculate_centroids.
  rewrite (centroid_loop labels measure_label).
  rewrite (centroid_loop_general labels measure_label true).
  cbn [fst app]. rewrite length_fmap.
  apply length_bind_ge. intros v Hv.
  apply list_elem_of_filter in Hv as [Hbg Hv]. apply elem_of_unique in Hv.
  destruct (Hml v Hv Hbg) as (c & Hc0 & Hc).
  rewrite length_fmap.
  pose proof (filter_nonempty (λ c : Z, c ≠ 0)
                (Np.unique (measure_label (eq_scalar labels v))) c
                (proj2 (elem_of_unique _ _) Hc) Hc0).
  lia.
Qed.

Lemma calculate_centroids_cca_count_witness :
  (length (calculate_centroids one_component example_label_map false 0).1
   ≤ length (calculate_centroids one_component example_label_map true 0).1)%nat.
Proof.
  apply (calculate_centroids_cca_count one_component example_label_map 0).
  intros v Hv Hbg. exists 1. split; [done|].
  vm_compute in Hv.
  repeat (apply elem_of_cons in Hv as [->|Hv]); try done;
    try (by apply elem_of_nil in Hv);
    vm_compute; repeat ((by left) || right).
Defined.

(** ** Centroid plot *)

Lemma plot_centroids_pairs (ax : list text_call) (centroids : list (list Z))
    (texts : list string) :
  Forall (λ p, length p = 2%nat) centroids →
  plot_centroids ax centroids texts
  = Ok (ax ++ omap annotation (zip centroids texts)).
Proof.
  unfold plot_centroids. intros Hall. revert ax texts.
  induction Hall as [|p centroids Hp _ IH]; intros ax texts.
  - by rewrite app_nil_r.
  - destruct texts as [|t texts]; [by rewrite app_nil_r|].
    destruct p as [|row [|col [|? ?]]]; try done.
    cbn [zip zip_with for_each omap list_omap annotation fst snd forallb].
    rewrite andb_true_r.
    destruct ((0 <? row) && (0 <? col)); cbn.
    + fold (zip centroids texts). rewrite IH. by rewrite <- app_assoc.
    + apply IH.
Qed.

(** X20. On a two-dimensional label map, plotting the centroids found
    without connected-component analysis never raises: the axis keeps its
    earlier text calls and receives, in centroid order, one text at
    (x = column, y = row) for each centroid paired with a text whose row
    and column are both positive; a centroid in row 0 or column 0 gets no
    text. *)
Theorem plot_centroids_of_label_map (measure_label : ndarray bool → ndarray Z)
    (labels : ndarray Z) (background : Z) (ax : list text_call)
    (texts : list string) :
  length (shape labels) = 2%nat →
  let centroids :=
    (calculate_centroids measure_label labels false background).1 in
  plot_centroids ax centroids texts
  = Ok (ax ++ omap annotation (zip centroids texts)).
Proof.
  intros Hrank centroids. apply plot_centroids_pairs.
  subst centroids. unfold calculate_centroids.
  rewrite (centroid_loop labels measure_label). cbn [fst app].
  apply Forall_fmap, Forall_forall. intros v _. cbn.
  unfold _calc_centroid, center_of_mass.
  by rewrite !length_fmap, length_seq.
Qed.

Lemma plot_centroids_of_label_map_witness :
  plot_centroids []
    (calculate_centroids no_components example_label_map false 0).1
    ["part"]%string
  = Ok ([] ++ omap annotation
                (zip (calculate_centroids no_components example_label_map
                        false 0).1 ["part"]%string)).
Proof.
  apply (plot_centroids_of_label_map no_components example_label_map 0 []
           ["part"]%string).
  reflexivity.
Defined.

(** ** Grouping compiler, further *)

Lemma outer_missing (semantic_remap_dict : gmap string (list string))
    (ps : list (nat * string)) (m0 : gmap Z Z) :
  (∃ i g, (i, g) ∈ ps ∧ semantic_remap_dict !! g = None) →
  (∀ i g olds o, (i, g) ∈ ps → semantic_remap_dict !! g = Some olds →
                 o ∈ olds → o ∈ PART_LIST) →
  for_each
    (λ (remap_dict : gmap Z Z) '(i, new_label),
       old_keys ← dict_getitem semantic_remap_dict new_label;
       update ← for_each
                  (λ (d : gmap Z Z) o,
                     k ← list_index PART_LIST o;
                     Ok (<[Z.of_nat k := Z.of_nat i]> d))
                  old_keys ∅;
       Ok (update ∪ remap_dict))
    ps m0
  = Raise KeyError.
Proof.
  revert m0. induction ps as [|[i g] ps IH]; intros m0 Hmiss Hvoc.
  { destruct Hmiss as (? & ? & H & _). by apply elem_of_nil in H. }
  cbn [for_each]. unfold dict_getitem at 1.
  destruct (semantic_remap_dict !! g) as [olds|] eqn:Holds; [|done].
  unfold mbind, result_bind. cbn [bind].
  assert (Hall : Forall (λ o, o ∈ PART_LIST) olds).
  { apply Forall_forall. intros o Ho. apply (Hvoc i g olds); [by left | done..]. }
  destruct (comprehension_ok PART_LIST i olds ∅ Hall) as (update & Hrun & _).
  unfold mbind, result_bind in Hrun. rewrite Hrun. cbn [bind]. apply IH.
  - destruct Hmiss as (i' & g' & Hin & Hnone).
    apply elem_of_cons in Hin as [[= -> ->]|Hin]; [congruence|].
    by exists i', g'.
  - intros i' g' olds' o Hin. apply (Hvoc i'). by right.
Qed.

(** X21. When a listed category has no entry in the grouping table, and
    the old names of the listed categories that do have one are all in the
    vocabulary, the compiler raises the [KeyError] of the table lookup. *)
Theorem semantic_remap_dict2remap_dict_missing_category
    (semantic_remap_dict : gmap string (list string))
    (new_part_list : list string) (g : string) :
  g ∈ new_part_list → semantic_remap_dict !! g = None →
  (∀ g' olds o, g' ∈ new_part_list → semantic_remap_dict !! g' = Some olds →
                o ∈ olds → o ∈ PART_LIST) →
  semantic_remap_dict2remap_dict semantic_remap_dict new_part_list
  = Raise KeyError.
Proof.
  intros Hg Hnone Hvoc. unfold semantic_remap_dict2remap_dict.
  apply outer_missing.
  - apply list_elem_of_lookup in Hg as [i Hi]. exists i, g.
    split; [by apply elem_of_enumerate | done].
  - intros i g' olds o Hin. apply Hvoc.
    apply elem_of_enumerate in Hin. by eapply list_elem_of_lookup_2.
Qed.

Lemma semantic_remap_dict2remap_dict_missing_category_witness :
  semantic_remap_dict2remap_dict
    {[ "hand" := ["right_hand"; "left_hand"] ]}%string
    ["hand"; "foot"]%string
  = Raise KeyError.
Proof.
  apply (semantic_remap_dict2remap_dict_missing_category _ _ "foot"%string).
  - right. by left.
  - by vm_compute.
  - intros g' olds o Hg' Holds Ho.
    repeat (apply elem_of_cons in Hg' as [->|Hg']);
      try (by apply elem_of_nil in Hg'); vm_compute in Holds; [|done].
    injection Holds as <-.
    repeat (apply elem_of_cons in Ho as [->|Ho]);
      try (by apply elem_of_nil in Ho);
      apply list_elem_of_In; vm_compute; tauto.
Defined.

Section GroupingRange.

Variable n : nat.

(** Keys are part IDs of the vocabulary, values are positions below [n]. *)
Let in_range (m : gmap Z Z) : Prop :=
  ∀ k v, m !! k = Some v →
    0 <= k < Z.of_nat (length PART_LIST) ∧ 0 <= v < Z.of_nat n.

Lemma comprehension_range (i : nat) (old_keys : list string) (d u : gmap Z Z) :
  for_each
    (λ (d : gmap Z Z) o,
       k ← list_index PART_LIST o;
       Ok (<[Z.of_nat k := Z.of_nat i]> d))
    old_keys d = Ok u →
  (i < n)%nat → in_range d → in_range u.
Proof.
  revert d. induction old_keys as [|o old_keys IH]; intros d Hrun Hi Hd.
  { cbn in Hrun. by injection Hrun as <-. }
  cbn [for_each] in Hrun.
  destruct (list_index PART_LIST o) as [k|] eqn:Hk; [|done].
  unfold mbind, result_bind in Hrun. cbn [bind] in Hrun.
  apply (IH _ Hrun Hi). intros k' v Hv.
  destruct (decide (k' = Z.of_nat k)) as [->|Hne].
  - rewrite lookup_insert_eq in Hv. injection Hv as <-.
    apply list_index_lookup, lookup_lt_Some in Hk. lia.
  - rewrite lookup_insert_ne in Hv by done. by apply Hd.
Qed.

Lemma outer_range (semantic_remap_dict : gmap string (list string))
    (ps : list (nat * string)) (m0 m : gmap Z Z) :
  for_each
    (λ (remap_dict : gmap Z Z) '(i, new_label),
       old_keys ← dict_getitem semantic_remap_dict new_label;
       update ← for_each
                  (λ (d : gmap Z Z) o,
                     k ← list_index PART_LIST o;
                     Ok (<[Z.of_nat k := Z.of_nat i]> d))
                  old_keys ∅;
       Ok (update ∪ remap_dict))
    ps m0 = Ok m →
  (∀ i g, (i, g) ∈ ps → (i < n)%nat) → in_range m0 → in_range m.
Proof.
  revert m0. induction ps as [|[i g] ps IH]; intros m0 Hrun Hps Hm0.
  { cbn in Hrun. by injection Hrun as <-. }
  cbn [for_each] in Hrun.
  destruct (dict_getitem semantic_remap_dict g) as [olds|]; [|done].
  unfold mbind, result_bind in Hrun. cbn [bind] in Hrun.
  match type of Hrun with
  | Py.bind (Py.bind ?inner _) _ = _ => destruct inner as [update|] eqn:Hin
  end; [|done].
  cbn [bind] in Hrun. apply (IH _ Hrun).
  - intros i' g' Hin'. apply (Hps i' g'). by right.
  - assert (Hu : in_range update).
    { apply (comprehension_range i olds ∅ update Hin).
      - apply (Hps i g). by left.
      - intros k v Hv. by rewrite lookup_empty in Hv. }
    intros k v Hv. apply lookup_union_Some_raw in Hv as [Hv|[_ Hv]].
    + by apply Hu.
    + by apply Hm0.
Qed.

End GroupingRange.

(** X22. Every entry of a compiled table sends a part ID of the
    vocabulary to a position in the list of categories, so a label map
    whose dtype holds the number of categories carries, once remapped
    with a compiled table, only 0 and positions of that list. *)
Theorem semantic_remap_dict2remap_dict_range
    (semantic_remap_dict : gmap string (list string))
    (new_part_list : list string) (m : gmap Z Z) :
  semantic_remap_dict2remap_dict semantic_remap_dict new_part_list = Ok m →
  (∀ k v, m !! k = Some v →
     0 <= k < Z.of_nat (length PART_LIST)
     ∧ 0 <= v < Z.of_nat (length new_part_list))
  ∧ ∀ part_map y,
      Z.of_nat (length new_part_list)
        <= Dtype.iinfo_max (Dtype.dtype_of part_map) + 1 →
      y ∈ data (Dtype.values (Dtype.remap_parts part_map m)) →
      y = 0 ∨ 0 < y < Z.of_nat (length new_part_list).
Proof.
  intros Hrun.
  assert (Hrange : ∀ k v, m !! k = Some v →
            0 <= k < Z.of_nat (length PART_LIST)
            ∧ 0 <= v < Z.of_nat (length new_part_list)).
  { apply (outer_range (length new_part_list) semantic_remap_dict
             (enumerate new_part_list) ∅ m Hrun).
    - intros i g Hin. apply elem_of_enumerate in Hin.
      by eapply lookup_lt_Some.
    - intros k v Hv. by rewrite lookup_empty in Hv. }
  split; [exact Hrange|].
  intros part_map y Hmax.
  rewrite typed_remap_parts_fit.
  - cbn [Dtype.values data]. intros Hy.
    apply list_elem_of_fmap in Hy as (x & -> & _).
    destruct (m !! x) as [v|] eqn:Hv; [|by left].
    cbn. destruct (Hrange x v Hv) as [_ ?]. lia.
  - intros x v _ Hv. destruct (Hrange x v Hv) as [_ Hv'].
    unfold Dtype.representable. split; [|lia].
    unfold Dtype.iinfo_min. destruct (Dtype.dtype_of part_map); cbn; lia.
Qed.

Lemma semantic_remap_dict2remap_dict_range_witness :
  (∀ k v, ({[0 := 0; 3 := 1; 4 := 1]} : gmap Z Z) !! k = Some v →
     0 <= k < Z.of_nat (length PART_LIST)
     ∧ 0 <= v < Z.of_nat (length ["background"; "hand"]%string))
  ∧ ∀ part_map y,
      Z.of_nat (length ["background"; "hand"]%string)
        <= Dtype.iinfo_max (Dtype.dtype_of part_map) + 1 →
      y ∈ data (Dtype.values
                  (Dtype.remap_parts part_map
                     ({[0 := 0; 3 := 1; 4 := 1]} : gmap Z Z))) →
      y = 0 ∨ 0 < y < Z.of_nat (length ["background"; "hand"]%string).
Proof.
  apply (semantic_remap_dict2remap_dict_range
           {[ "background" := ["background"];
              "hand" := ["right_hand"; "left_hand"] ]}%string
           ["background"; "hand"]%string).
  by vm_compute.
Defined.

(** ** Label-map resizer, further *)

Lemma map_each_first_raise {A B : Type} (f : A → result B) (xs : list A)
    (i : nat) (x : A) (e : exn) :
  xs !! i = Some x → f x = Raise e →
  (∀ j y, (j < i)%nat → xs !! j = Some y → ∃ r, f y = Ok r) →
  map_each f xs = Raise e.
Proof.
  revert i. induction xs as [|x0 xs IH]; intros i Hi Hx Hbefore; [done|].
  cbn [map_each]. destruct i as [|i].
  - injection Hi as ->. by rewrite Hx.
  - destruct (Hbefore 0%nat x0) as [r Hr]; [lia | done |].
    rewrite Hr. cbn [bind]. rewrite (IH i); [done | done | done |].
    intros j y Hj Hy. apply (Hbefore (S j) y); [lia | done].
Qed.

(** X23. In a stack of label maps whose height and width both differ
    from 1, the error of the first slice whose 2-D resize fails is the
    error of the batch resize. *)
Theorem resize_labels_first_failure
    (cv2_resize : ndarray Z → nat * nat → interpolation → result (ndarray Z))
    (labels : ndarray Z) (size : nat * nat) (N H W i : nat) (e : exn) :
  shape labels = [N; H; W] → H ≠ 1%nat → W ≠ 1%nat → (i < N)%nat →
  resize_labels cv2_resize (subarray labels i) size = Raise e →
  (∀ j, (j < i)%nat →
     ∃ r, resize_labels cv2_resize (subarray labels j) size = Ok r) →
  resize_labels cv2_resize labels size = Raise e.
Proof.
  intros Hshape HH HW Hi Hfail Hbefore.
  unfold resize_labels at 1. rewrite Hshape.
  rewrite decide_False by done. rewrite decide_True by done.
  change (default 0%nat (head [N; H; W])) with N.
  rewrite (split_batch labels N H W) by (done || lia).
  unfold mbind, result_bind. cbn [bind].
  rewrite (map_each_first_raise _ _ i
             (NdArray [1; H; W]%nat
                (take (numel [H; W]) (drop (i * numel [H; W]) (data labels))))
             e); [done | | |].
  - rewrite list_lookup_fmap, lookup_seq_lt by done. done.
  - rewrite (squeeze_piece labels N H W) by done.
    by rewrite (resize_labels_slice cv2_resize labels N H W) in Hfail.
  - intros j y Hj Hy. rewrite list_lookup_fmap, lookup_seq_lt in Hy by lia.
    injection Hy as <-. rewrite (squeeze_piece labels N H W) by done.
    destruct (Hbefore j Hj) as [r Hr]. exists r.
    by rewrite (resize_labels_slice cv2_resize labels N H W) in Hr.
Qed.

Lemma resize_labels_first_failure_witness :
  resize_labels cv2_resize_nearest
    (NdArray [2; 2; 2]%nat [0; 0; 1; 1; 0; 1; 1; 1]) (0, 4)%nat
  = Raise CvError.
Proof.
  apply (resize_labels_first_failure cv2_resize_nearest _ _ 2 2 2 0 CvError);
    try done; lia.
Defined.

(** ** IUV loader *)

Lemma bind_singletons {A : Type} (g : nat → list A) (s n : nat) :
  (∀ p, (s ≤ p < s + n)%nat → length (g p) = 1%nat) →
  length (seq s n ≫= g) = n
  ∧ ∀ p, (p < n)%nat → (seq s n ≫= g) !! p = g (s + p)%nat !! 0%nat.
Proof.
  revert s. induction n as [|n IH]; intros s Hone.
  { split; [done | intros p Hp; lia]. }
  cbn [seq mbind list_bind].
  destruct (IH (S s)) as [Hlen Hlook]; [intros p Hp; apply Hone; lia|].
  pose proof (Hone s ltac:(lia)) as Hs.
  split.
  - rewrite length_app, Hs. by rewrite Hlen.
  - intros [|p] Hp.
    + rewrite Nat.add_0_r. rewrite lookup_app_l by lia. done.
    + rewrite lookup_app_r by lia. rewrite Hs.
      replace (S p - 1)%nat with p by lia. rewrite Hlook by lia.
      by replace (S s + p)%nat with (s + S p)%nat by lia.
Qed.

Lemma channel_data {A : Type} (l : list A) (n c j : nat) :
  length l = (n * c)%nat → (j < c)%nat →
  length (p ← seq 0 n; take 1 (drop (p * c + j) l)) = n
  ∧ ∀ p, (p < n)%nat →
      (p ← seq 0 n; take 1 (drop (p * c + j) l)) !! p = l !! (p * c + j)%nat.
Proof.
  intros Hlen Hj.
  destruct (bind_singletons (λ p, take 1 (drop (p * c + j) l)) 0 n)
    as [Hn Hlook].
  { intros p Hp. rewrite length_take, length_drop. nia. }
  split; [exact Hn|]. intros p Hp. rewrite Hlook by done.
  cbn beta. rewrite Nat.add_0_l, lookup_take_lt by lia.
  rewrite lookup_drop. by rewrite Nat.add_0_r.
Qed.

(** X24. For a readable image with three channels, [load_iuv] returns its
    three channel planes in order: each has the image's height and width
    as shape (less any axis of length 1, which the squeeze drops) and
    holds, pixel by pixel, the first, second and third channel value. *)
Theorem load_iuv_channels (imread : string → option (ndarray Z))
    (iuv_path : string) (iuv : ndarray Z) (H W : nat) :
  imread iuv_path = Some iuv → wf iuv → shape iuv = [H; W; 3%nat] →
  ∃ i u v, load_iuv imread iuv_path = Ok (i, u, v)
    ∧ shape i = filter (λ d, d ≠ 1%nat) [H; W]
    ∧ shape u = shape i ∧ shape v = shape i
    ∧ length (data i) = (H * W)%nat
    ∧ length (data u) = (H * W)%nat
    ∧ length (data v) = (H * W)%nat
    ∧ ∀ p, (p < H * W)%nat →
        data i !! p = data iuv !! (p * 3)%nat
        ∧ data u !! p = data iuv !! (p * 3 + 1)%nat
        ∧ data v !! p = data iuv !! (p * 3 + 2)%nat.
Proof.
  intros Hread Hwf Hshape. unfold load_iuv, dsplit. rewrite Hread, Hshape.
  rewrite decide_False by done. rewrite decide_True by done.
  unfold mbind at 1, result_bind. cbn [bind seq fmap list_fmap].
  change (3 / 3)%nat with 1%nat. change (numel []) with 1%nat.
  change (1 * 1)%nat with 1%nat. change (3 * 1)%nat with 3%nat.
  assert (Hlen : length (data iuv) = (H * W * 3)%nat).
  { unfold wf in Hwf. rewrite Hwf, Hshape. cbn. lia. }
  destruct (channel_data (data iuv) (H * W) 3 0 Hlen ltac:(lia)) as [Li Di].
  destruct (channel_data (data iuv) (H * W) 3 1 Hlen ltac:(lia)) as [Lu Du].
  destruct (channel_data (data iuv) (H * W) 3 2 Hlen ltac:(lia)) as [Lv Dv].
  eexists _, _, _. split; [reflexivity|].
  unfold squeeze. cbn [shape data].
  assert (Hsq : filter (λ d, d ≠ 1%nat) [H; W; 1%nat]
                = filter (λ d, d ≠ 1%nat) [H; W]).
  { rewrite !filter_cons, filter_nil.
    rewrite (decide_False (P := 1%nat ≠ 1%nat)) by (intros Hn; by apply Hn).
    done. }
  split_and!; try done.
  intros p Hp. split_and!.
  - rewrite <- (Nat.add_0_r (p * 3)). by apply Di.
  - by apply Du.
  - by apply Dv.
Qed.

Lemma load_iuv_channels_witness :
  ∃ i u v,
    load_iuv (λ _, Some (NdArray [1; 2; 3]%nat [24; 10; 20; 3; 30; 40]))
      "pose_IUV.png" = Ok (i, u, v)
    ∧ shape i = filter (λ d, d ≠ 1%nat) [1; 2]%nat
    ∧ shape u = shape i ∧ shape v = shape i
    ∧ length (data i) = (1 * 2)%nat
    ∧ length (data u) = (1 * 2)%nat
    ∧ length (data v) = (1 * 2)%nat
    ∧ ∀ p, (p < 1 * 2)%nat →
        data i !! p = [24; 10; 20; 3; 30; 40] !! (p * 3)%nat
        ∧ data u !! p = [24; 10; 20; 3; 30; 40] !! (p * 3 + 1)%nat
        ∧ data v !! p = [24; 10; 20; 3; 30; 40] !! (p * 3 + 2)%nat.
Proof.
  apply (load_iuv_channels
           (λ _, Some (NdArray [1; 2; 3]%nat [24; 10; 20; 3; 30; 40]))
           "pose_IUV.png"
           (NdArray [1; 2; 3]%nat [24; 10; 20; 3; 30; 40]) 1 2);
    reflexivity.
Defined.

(** X25. [load_iuv] raises [ValueError] when the file cannot be read, when
    the image has fewer than three axes (a grey-scale image), and when
    the number of channels is not a multiple of three (an image with an
    alpha channel). *)
Theorem load_iuv_rejects (imread : string → option (ndarray Z))
    (iuv_path : string) :
  (imread iuv_path = None
   ∨ ∃ iuv, imread iuv_path = Some iuv
       ∧ ((length (shape iuv) < 3)%nat
          ∨ ∃ c, shape iuv !! 2%nat = Some c ∧ (c mod 3 ≠ 0)%nat)) →
  load_iuv imread iuv_path = Raise ValueError.
Proof.
  unfold load_iuv, dsplit. intros [->|(iuv & -> & Hbad)]; [done|].
  destruct (shape iuv) as [|h [|w [|c rest]]]; try done.
  destruct Hbad as [Hrank|(c' & Hc & Hmod)]; [cbn in Hrank; lia|].
  cbn in Hc. injection Hc as <-.
  rewrite decide_False by done. by rewrite decide_False.
Qed.

Lemma load_iuv_rejects_witness :
  load_iuv (λ _, Some (NdArray [2; 2]%nat [0; 1; 2; 3])) "grey.png"
  = Raise ValueError.
Proof.
  apply (load_iuv_rejects (λ _, Some (NdArray [2; 2]%nat [0; 1; 2; 3]))).
  right. eexists. split; [reflexivity|]. left. cbn. lia.
Defined.

(** ** SPADE layers *)

